(** * cacheMock: a shallow embedding of [cacheMock.js]

    The three entry points of the module ([cacheMock], [cacheMock.restore]
    and [cacheMock.require]) are embedded as computations in a small
    state-and-exception monad over a [world]: Node's [require.cache], a heap
    of JavaScript objects addressed by reference, and the internal registry
    [cacheMock.cache].  Objects live on a heap because the code relies on
    reference identity: [Object.assign] mutates the live exports object in
    place, while [restore] swaps the reference held by the module record.

    Objects are ordinary objects that inherit from [Object.prototype]; an
    own property is a data property (enumerable or not, writable or not) or
    an accessor without a setter, whose getter does nothing but return a
    value.  Setters and proxies run code of their own and are left out.  Of
    the logger only what can reach the caller is kept: the [JSON.stringify]
    of the first line of [cacheMock]. *)

From stdpp Require Import gmap strings list fin_maps.

(** ** JavaScript values, objects and module records *)

(** An object reference: the index of the object on the heap. *)
Abbreviation loc := nat.

(** Property values.  Functions are objects, so an exported function is a
    [VRef]. *)
Inductive value :=
  | VUndefined
  | VNull
  | VBool (b : bool)
  | VNum (n : Z)
  | VStr (s : string)
  | VRef (l : loc).

(** A plain object: its own enumerable string-keyed properties.  Equality of
    two such maps is structural equality of the objects (same key set, same
    binding for every key). *)
Abbreviation obj := (gmap string value).

(** An object passed as an argument and only read: its own enumerable
    properties in the order in which [Object.assign] visits them.  The keys
    of an object are distinct; a list that repeats a key stands for the
    assignments made one after the other. *)
Abbreviation mapping := (list (string * value)).

(** What else the code can notice about an object: the keys of its own
    properties that cannot be assigned (not writable, or a getter without a
    setter), the keys of its own writable properties that are not
    enumerable, and whether properties can be added. *)
Record attr := {
  readonly : gset string;
  hidden : gset string;
  extensible : bool
}.

(** Node's [Module] instances, as far as [cacheMock.js] reads and writes
    them.  [exports] is a reference to the exports object. *)
Record NodeModule := {
  mod_id : string;
  filename : option string;
  loaded : bool;
  exports : loc;
  parent : option string
}.

(** [cachedModule.exports = v] *)
Definition set_exports (m : NodeModule) (v : loc) : NodeModule :=
  {| mod_id := mod_id m; filename := filename m; loaded := loaded m;
     exports := v; parent := parent m |}.

(** ** The registry [cacheMock.cache]

    A plain object used as a map from resolved path to the reference of the
    saved copy.  It is kept as an association list in insertion order, the
    order in which [Object.keys] enumerates it.  Its keys are resolved paths
    (absolute file names or names of built-in modules), none of which is the
    name of a property inherited from [Object.prototype]; the entries are
    written by this module only, so every value is an object. *)
Abbreviation registry := (list (string * loc)).

Fixpoint reg_get (k : string) (r : registry) : option loc :=
  match r with
  | [] => None
  | (k', v) :: r' => if decide (k' = k) then Some v else reg_get k r'
  end.

(** [r[k] = v] for a key that [r] does not have yet: appended last. *)
Definition reg_add (k : string) (v : loc) (r : registry) : registry :=
  r ++ [(k, v)].

(** [delete r[k]] *)
Definition reg_delete (k : string) (r : registry) : registry :=
  filter (λ kv, kv.1 ≠ k) r.

(** [Object.keys(r)] *)
Definition reg_keys (r : registry) : list string := r.*1.

(** ** The state the code runs against

    A reference that points to no object of the heap stands for an
    [exports] that is [null] or [undefined].  An object without an entry in
    [attrs] is plain: extensible, with writable enumerable properties only. *)
Record world := {
  require_cache : gmap string NodeModule;   (* require.cache *)
  heap : list obj;                          (* objects, by reference *)
  attrs : gmap loc attr;                    (* objects that are not plain *)
  cache : registry;                         (* cacheMock.cache *)
  effects : list string                     (* modules whose code has run *)
}.

(** ** The host: Node's resolver and loader, and [JSON.stringify]

    [resolve] is [require.resolve]; [source_of] says what [require] does
    with a resolved path that is not cached: the code of the file throws, or
    nothing reaches [require.cache] (a built-in module), or the code builds
    an exports object and a record for it is cached.  Whatever else the code
    of a module does is summed up in the [effects] of the world.
    [json_stringify_ok h o] says whether [JSON.stringify] returns on an
    object with the properties [o], the objects it refers to being those of
    the heap [h]; it throws on a cyclic structure, for one. *)
Inductive source :=
  | SrcThrows
  | SrcBuiltin
  | SrcExports (init : obj) (a : option attr).

Record host := {
  resolve : string → option string;
  source_of : string → source;
  json_stringify_ok : list obj → mapping → bool;
  this_module : string;             (* the id of cacheMock.js itself *)
  module_parent : option string     (* module.parent inside cacheMock.js *)
}.

(** ** Computations: state passing with exceptions

    A thrown exception leaves the state as it was at the throw: JavaScript
    does not roll back. *)
Inductive error := ResolutionError | LoadError | TypeError.

Inductive outcome (A : Type) :=
  | Return (a : A)
  | Throw (e : error).
Arguments Return {A} a.
Arguments Throw {A} e.

Definition js (A : Type) : Type := world → outcome A * world.

Definition ret {A} (a : A) : js A := λ w, (Return a, w).
Definition throw {A} (e : error) : js A := λ w, (Throw e, w).
Definition bind {A B} (m : js A) (k : A → js B) : js B :=
  λ w, match m w with
       | (Return a, w') => k a w'
       | (Throw e, w') => (Throw e, w')
       end.

Notation "'let*' x := m 'in' k" := (bind m (λ x, k))
  (at level 10, x name, m at level 200, k at level 200).
Notation "m ;; k" := (bind m (λ _, k))
  (at level 100, k at level 200, right associativity).

(** *** Primitive reads and writes *)

(** [require.cache[p]] *)
Definition get_cached (p : string) : js (option NodeModule) :=
  λ w, (Return (require_cache w !! p), w).

(** [require.cache[p] = m] *)
Definition set_cached (p : string) (m : NodeModule) : js unit :=
  λ w, (Return tt,
        {| require_cache := <[p := m]> (require_cache w); heap := heap w;
           attrs := attrs w; cache := cache w; effects := effects w |}).

(** [cacheMock.cache[p]] *)
Definition get_original (p : string) : js (option loc) :=
  λ w, (Return (reg_get p (cache w)), w).

Definition set_original (p : string) (l : loc) : js unit :=
  λ w, (Return tt,
        {| require_cache := require_cache w; heap := heap w;
           attrs := attrs w; cache := reg_add p l (cache w);
           effects := effects w |}).

(** [delete cacheMock.cache[p]] *)
Definition delete_original (p : string) : js unit :=
  λ w, (Return tt,
        {| require_cache := require_cache w; heap := heap w;
           attrs := attrs w; cache := reg_delete p (cache w);
           effects := effects w |}).

(** [Object.keys(cacheMock.cache)] *)
Definition object_keys : js (list string) :=
  λ w, (Return (reg_keys (cache w)), w).

(** A new object at the next free reference, with the attributes [a]
    ([None] for a plain one). *)
Definition alloc_with (o : obj) (a : option attr) : js loc :=
  λ w, (Return (length (heap w)),
        {| require_cache := require_cache w; heap := heap w ++ [o];
           attrs := match a with
                    | Some a => <[length (heap w) := a]> (attrs w)
                    | None => delete (length (heap w)) (attrs w)
                    end;
           cache := cache w; effects := effects w |}).

(** An object literal: a new plain object. *)
Definition alloc (o : obj) : js loc := alloc_with o None.

(** The own enumerable properties of the object behind a reference; none
    when there is no object. *)
Definition props (h : list obj) (l : loc) : obj := default ∅ (h !! l).

(** [{ ...o }]: a new plain object with the own enumerable properties of
    [o]. *)
Definition spread (l : loc) : js loc :=
  λ w, alloc (props (heap w) l) w.

(** *** [Object.assign] *)

(** What the assignment [target[k] = v], made as [Object.assign] makes it,
    comes to. *)
Inductive set_result :=
  | SetThrows      (* TypeError *)
  | SetWrites      (* an enumerable own property now holds [v] *)
  | SetSilent.     (* nothing that is enumerable changes *)

Definition is_object_or_null (v : value) : bool :=
  match v with
  | VRef _ | VNull => true
  | _ => false
  end.

(** [a], [o]: the attributes and enumerable properties of the target.  A key
    that the target does not have is added if the target is extensible;
    [__proto__] is then not added: the setter inherited from
    [Object.prototype] takes the value, and changes the prototype when the
    value is an object or [null], which an object that is not extensible
    refuses. *)
Definition set_outcome (a : option attr) (o : obj) (k : string) (v : value)
    : set_result :=
  let ro := from_option readonly ∅ a in
  let hid := from_option hidden ∅ a in
  let ext := from_option extensible true a in
  if decide (k ∈ ro) then SetThrows
  else if decide (k ∈ hid) then SetSilent
  else if decide (is_Some (o !! k)) then SetWrites
  else if decide (k = "__proto__")
       then (if is_object_or_null v && negb ext then SetThrows else SetSilent)
  else if ext then SetWrites else SetThrows.

(** [target[k] = v] *)
Definition set_property (target : loc) (k : string) (v : value) : js unit :=
  λ w, match set_outcome (attrs w !! target) (props (heap w) target) k v with
       | SetThrows => (Throw TypeError, w)
       | SetSilent => (Return tt, w)
       | SetWrites =>
           (Return tt,
            {| require_cache := require_cache w;
               heap := alter (λ o, <[k := v]> o) target (heap w);
               attrs := attrs w; cache := cache w; effects := effects w |})
       end.

(** The loop of [Object.assign] over the properties of the source. *)
Fixpoint assign_props (target : loc) (source : mapping) : js unit :=
  match source with
  | [] => ret tt
  | (k, v) :: rest => set_property target k v ;; assign_props target rest
  end.

(** [Object.assign(target, source)]: every own enumerable property of
    [source] is assigned to [target], in place and in order, up to the first
    assignment that throws.  A target that is [null] or [undefined] throws
    before any assignment. *)
Definition object_assign (target : loc) (source : mapping) : js unit :=
  λ w, match heap w !! target with
       | None => (Throw TypeError, w)
       | Some _ => assign_props target source w
       end.

(** *** The host's part *)

(** The module's code runs: a side effect, recorded. *)
Definition run_code (p : string) : js unit :=
  λ w, (Return tt,
        {| require_cache := require_cache w; heap := heap w;
           attrs := attrs w; cache := cache w;
           effects := effects w ++ [p] |}).

(** [require(p)] for a path that is not in [require.cache]. *)
Definition host_require (H : host) (p : string) : js unit :=
  match source_of H p with
  | SrcThrows => run_code p ;; throw LoadError
  | SrcBuiltin => ret tt
  | SrcExports init a =>
      run_code p ;;
      let* e := alloc_with init a in
      set_cached p {| mod_id := p; filename := Some p; loaded := true;
                      exports := e; parent := Some (this_module H) |}
  end.

(** [require.resolve(path)] *)
Definition require_resolve (H : host) (path : string) : js string :=
  match resolve H path with
  | Some p => ret p
  | None => throw ResolutionError
  end.

(** The argument of [logger.debug] in the first line of [cacheMock]:
    [JSON.stringify(mockExports, null, 2)] is evaluated whatever the log
    level. *)
Definition stringify_for_log (H : host) (mockExports : mapping) : js unit :=
  λ w, if json_stringify_ok H (heap w) mockExports
       then (Return tt, w)
       else (Throw TypeError, w).

(** ** [cacheMock(path, mockExports)]

    [mockExports] is only read, so it is passed as the properties it has at
    the call. *)
Definition cacheMock (H : host) (path : string) (mockExports : mapping)
    : js unit :=
  stringify_for_log H mockExports ;;
  let* resolvedPath := require_resolve H path in
  let* c := get_cached resolvedPath in
  match c with
  | None => host_require H resolvedPath
  | Some _ => ret tt
  end ;;
  let* cachedModule := get_cached resolvedPath in
  match cachedModule with
  | None => throw TypeError                (* undefined.exports *)
  | Some cachedModule =>
      let* original := get_original resolvedPath in
      match original with
      | Some _ => ret tt                   (* ??= keeps what is there *)
      | None =>
          let* copy := spread (exports cachedModule) in
          set_original resolvedPath copy
      end ;;
      object_assign (exports cachedModule) mockExports
  end.

(** ** [cacheMock.restore(path)] *)

(** The body of the loop, for one resolved path. *)
Definition restore_entry (resolvedPath : string) : js unit :=
  let* cachedModule := get_cached resolvedPath in
  let* original := get_original resolvedPath in
  match cachedModule, original with
  | Some m, Some o =>
      set_cached resolvedPath (set_exports m o) ;;
      delete_original resolvedPath
  | _, _ => ret tt
  end.

(** [for (const x of entries) body(x)] *)
Fixpoint for_of (entries : list string) (body : string → js unit) : js unit :=
  match entries with
  | [] => ret tt
  | x :: rest => body x ;; for_of rest body
  end.

(** The truth value of a string: only the empty string is falsy. *)
Definition truthy (s : string) : bool :=
  match s with
  | "" => false
  | _ => true
  end.

(** [path] is [None] when the argument is omitted (undefined). *)
Definition cacheMock_restore (H : host) (path : option string) : js unit :=
  let* entries := match path with
                   | Some s =>
                       if truthy s
                       then (let* p := require_resolve H s in ret [p])
                       else object_keys
                   | None => object_keys
                   end in
  for_of entries restore_entry.

(** ** [cacheMock.require(modulePath, exports = {})] *)

(** What a call evaluates to. *)
Inductive retval :=
  | RUndefined
  | RModule (m : NodeModule).

(** [exports_arg] is [None] when the argument is omitted: the default [{}] is
    then evaluated on entry.  The function has no [return] statement. *)
Definition cacheMock_require (H : host) (modulePath : string)
    (exports_arg : option loc) : js retval :=
  let* exports_ := match exports_arg with
                    | Some l => ret l
                    | None => alloc ∅
                    end in
  let* resolvedPath := require_resolve H modulePath in
  let* c := get_cached resolvedPath in
  match c with
  | None =>
      set_cached resolvedPath
        {| mod_id := resolvedPath; filename := Some resolvedPath;
           loaded := true; exports := exports_;
           parent := module_parent H |}
  | Some _ => ret tt
  end ;;
  ret RUndefined.

(** ** The state changes of the operations, as functions on worlds *)

(** The loop body of [restore] for [p]: on a path that has both a module
    record and a saved copy, the record's [exports] becomes the saved copy
    and the entry goes; otherwise nothing changes. *)
Definition restored (p : string) (w : world) : world :=
  match require_cache w !! p, reg_get p (cache w) with
  | Some m, Some o =>
      {| require_cache := <[p := set_exports m o]> (require_cache w);
         heap := heap w; attrs := attrs w;
         cache := reg_delete p (cache w); effects := effects w |}
  | _, _ => w
  end.

(** Line 44 of [cacheMock], for a module record [m] at [p]. *)
Definition snapshotted (p : string) (m : NodeModule) (w : world) : world :=
  match reg_get p (cache w) with
  | Some _ => w
  | None =>
      {| require_cache := require_cache w;
         heap := heap w ++ [props (heap w) (exports m)];
         attrs := delete (length (heap w)) (attrs w);
         cache := reg_add p (length (heap w)) (cache w);
         effects := effects w |}
  end.

(** The enumerable properties after one assignment that does not throw. *)
Definition written (a : option attr) (k : string) (v : value) (o : obj) : obj :=
  match set_outcome a o k v with
  | SetWrites => <[k := v]> o
  | _ => o
  end.

(** The enumerable properties after the assignments of [source], in order. *)
Definition merged (a : option attr) (source : mapping) (o : obj) : obj :=
  foldl (λ o kv, written a kv.1 kv.2 o) o source.

(** Line 46 of [cacheMock], as far as the assignments of [source] go. *)
Definition assigned (target : loc) (source : mapping) (w : world) : world :=
  {| require_cache := require_cache w;
     heap := alter (merged (attrs w !! target) source) target (heap w);
     attrs := attrs w; cache := cache w; effects := effects w |}.

(** The value [source] has for [k]: that of its last entry for [k]. *)
Fixpoint mapping_get (k : string) (source : mapping) : option value :=
  match source with
  | [] => None
  | (k', v) :: rest =>
      match mapping_get k rest with
      | Some v' => Some v'
      | None => if decide (k' = k) then Some v else None
      end
  end.

(** The live exports of the module at [p]: the properties of the object its
    record points to. *)
Definition live (w : world) (p : string) : option obj :=
  m ← require_cache w !! p; heap w !! exports m.

(** The whole loop of [restore] over [entries]. *)
Definition restore_loop (entries : list string) (w : world) : world :=
  foldl (λ w p, restored p w) w entries.

(** [cacheMock(path, mockExports)] for each pair, in order. *)
Fixpoint mock_all (H : host) (ms : list (string * mapping)) : js unit :=
  match ms with
  | [] => ret tt
  | (path, mockExports) :: rest =>
      cacheMock H path mockExports ;; mock_all H rest
  end.

(** The live exports of the module at [p] at the moment of the first call of
    [ms] whose path resolves to [p], the calls before it having been made
    from [w]. *)
Fixpoint exports_at_first_mock (H : host) (ms : list (string * mapping))
    (w : world) (p : string) : option obj :=
  match ms with
  | [] => None
  | (path, mockExports) :: rest =>
      if decide (resolve H path = Some p) then live w p
      else exports_at_first_mock H rest (cacheMock H path mockExports w).2 p
  end.

(** ** A concrete host and worlds: the modules of the test suite *)

(** [JSON.stringify] on values that are primitives or references to plain
    data objects: it throws when it meets an object it is already inside
    of.  [fuel] bounds the depth, which cannot exceed the number of
    objects. *)
Fixpoint stringify_value_ok (fuel : nat) (h : list obj) (inside : list loc)
    (v : value) : bool :=
  match v with
  | VRef l =>
      match fuel with
      | 0 => false
      | S fuel' =>
          if decide (l ∈ inside) then false
          else match h !! l with
               | None => true
               | Some o =>
                   forallb (stringify_value_ok fuel' h (l :: inside))
                     (map_to_list o).*2
               end
      end
  | _ => true
  end.

Definition stringify_ok (h : list obj) (o : mapping) : bool :=
  forallb (stringify_value_ok (S (length h)) h []) o.*2.

Definition tmpModule : obj :=
  {[ "a" := VStr "originalA"; "b" := VStr "originalB"; "value" := VNum 123 ]}.

Definition tmpModule2 : obj :=
  {[ "x" := VStr "originalX"; "y" := VStr "originalY" ]}.

(** Node resolves neither the empty string nor a file that does not exist. *)
Definition test_host : host :=
  {| resolve := λ s,
       if decide (s = "./tmpModule.js") then Some "/test/tmpModule.js"
       else if decide (s = "/test/tmpModule.js") then Some "/test/tmpModule.js"
       else if decide (s = "/test/tmpModule2.js") then Some "/test/tmpModule2.js"
       else if decide (s = "/test/tmpPreloadModule.js")
            then Some "/test/tmpPreloadModule.js"
       else None;
     source_of := λ p,
       if decide (p = "/test/tmpModule.js") then SrcExports tmpModule None
       else if decide (p = "/test/tmpModule2.js")
            then SrcExports tmpModule2 None
       else if decide (p = "/test/tmpPreloadModule.js")
            then SrcExports {[ "original" := VBool true ]} None
       else SrcThrows;
     json_stringify_ok := stringify_ok;
     this_module := "/test/cacheMock.js";
     module_parent := Some "/test/cacheMock.test.js" |}.

(** A process in which nothing is loaded and nothing is mocked. *)
Definition fresh_process : world :=
  {| require_cache := ∅; heap := []; attrs := ∅; cache := [];
     effects := [] |}.

(** [tmpModule.js] has been required by the test. *)
Definition tmp_loaded : world :=
  {| require_cache :=
       {[ "/test/tmpModule.js" :=
            {| mod_id := "/test/tmpModule.js";
               filename := Some "/test/tmpModule.js"; loaded := true;
               exports := 0; parent := Some "/test/cacheMock.test.js" |} ]};
     heap := [tmpModule]; attrs := ∅; cache := [];
     effects := ["/test/tmpModule.js"] |}.

(** [tmpModule.js] after [cacheMock('./tmpModule.js', {a: 'mockedA'})]. *)
Definition tmp_mocked : world :=
  (cacheMock test_host "./tmpModule.js" [("a", VStr "mockedA")]
     tmp_loaded).2.

(** Both test modules have been required by the test. *)
Definition both_loaded : world :=
  {| require_cache :=
       {[ "/test/tmpModule.js" :=
            {| mod_id := "/test/tmpModule.js";
               filename := Some "/test/tmpModule.js"; loaded := true;
               exports := 0; parent := Some "/test/cacheMock.test.js" |};
          "/test/tmpModule2.js" :=
            {| mod_id := "/test/tmpModule2.js";
               filename := Some "/test/tmpModule2.js"; loaded := true;
               exports := 1; parent := Some "/test/cacheMock.test.js" |} ]};
     heap := [tmpModule; tmpModule2]; attrs := ∅; cache := [];
     effects := ["/test/tmpModule.js"; "/test/tmpModule2.js"] |}.

(** The two mocks of the test "should handle multiple mocks and restore
    all". *)
Definition two_mocks : list (string * mapping) :=
  [("/test/tmpModule.js", [("a", VStr "mockA")]);
   ("/test/tmpModule2.js", [("x", VStr "mockX")])].

(** Both test modules, mocked one after the other. *)
Definition both_mocked : world := (mock_all test_host two_mocks both_loaded).2.

(** The test has evaluated the literal [{value: 999, extra: 'mocked'}] and is
    about to pass it to [cacheMock.require]. *)
Definition stub_made : world :=
  {| require_cache := ∅;
     heap := [ {[ "value" := VNum 999; "extra" := VStr "mocked" ]} ];
     attrs := ∅; cache := []; effects := [] |}.

(** [tmpModule.js] is loaded, and the test has made an object [o] with
    [o.self = o]. *)
Definition cycle_made : world :=
  {| require_cache := require_cache tmp_loaded;
     heap := [tmpModule; {[ "self" := VRef 1 ]}];
     attrs := ∅; cache := []; effects := effects tmp_loaded |}.

(** [tmpModule.js] is loaded and its exports object has been frozen. *)
Definition tmp_frozen : world :=
  {| require_cache := require_cache tmp_loaded;
     heap := [tmpModule];
     attrs := {[ 0 := {| readonly := {[ "a"; "b"; "value" ]}; hidden := ∅;
                         extensible := false |} ]};
     cache := []; effects := effects tmp_loaded |}.

(** ** Sequences of calls *)

(** What test code does with the module: the three entry points, and
    evaluating an object literal (to have something to pass on). *)
Inductive call :=
  | CallMock (path : string) (mockExports : mapping)
  | CallRestore (path : option string)
  | CallRequire (modulePath : string) (exports_arg : option loc)
  | NewObject (o : obj).

(** The state a call leaves, whether it returns or throws. *)
Definition after (H : host) (c : call) (w : world) : world :=
  match c with
  | CallMock path mockExports => (cacheMock H path mockExports w).2
  | CallRestore path => (cacheMock_restore H path w).2
  | CallRequire modulePath exports_arg =>
      (cacheMock_require H modulePath exports_arg w).2
  | NewObject o => (alloc o w).2
  end.

(** ** Objects that are not shared *)

(** Every reference held by a module record or by the registry points into
    the heap, no two module records have the same exports object, and no
    saved copy is the exports object of a module or the saved copy of
    another path. *)
Record separated (w : world) : Prop := {
  sep_exports_valid : ∀ p m,
    require_cache w !! p = Some m → exports m < length (heap w);
  sep_saved_valid : ∀ p s,
    reg_get p (cache w) = Some s → s < length (heap w);
  sep_exports_inj : ∀ p q m n,
    require_cache w !! p = Some m → require_cache w !! q = Some n →
    exports m = exports n → p = q;
  sep_saved_live : ∀ p q s m,
    reg_get p (cache w) = Some s → require_cache w !! q = Some m →
    s ≠ exports m;
  sep_saved_inj : ∀ p q s t,
    reg_get p (cache w) = Some s → reg_get q (cache w) = Some t →
    s = t → p = q
}.

(** An existing object that is neither the exports of a module nor a saved
    copy. *)
Definition unaliased (w : world) (l : loc) : Prop :=
  l < length (heap w) ∧
  (∀ q m, require_cache w !! q = Some m → exports m ≠ l) ∧
  (∀ q s, reg_get q (cache w) = Some s → s ≠ l).

(** [cacheMock.require] is given no object, or one that is not in use. *)
Definition call_ok (w : world) (c : call) : Prop :=
  match c with
  | CallRequire _ (Some l) => unaliased w l
  | _ => True
  end.

(** The states reachable by such calls. *)
Inductive reaches (H : host) : world → world → Prop :=
  | reaches_here w : reaches H w w
  | reaches_call w1 w2 c :
      reaches H w1 w2 → call_ok w2 c → reaches H w1 (after H c w2).

(** The exports a module goes back to on [restore]: the saved copy while the
    path has an entry, the live exports otherwise. *)
Definition pre_mock_state (w : world) (p : string) : option obj :=
  match reg_get p (cache w) with
  | Some s => heap w !! s
  | None => live w p
  end.

(** [w'] is separated, has every module of [w], and each of them has the
    pre-mock state it had in [w]. *)
Definition keeps (w w' : world) : Prop :=
  separated w' ∧
  ∀ q, is_Some (require_cache w !! q) →
       is_Some (require_cache w' !! q) ∧
       pre_mock_state w' q = pre_mock_state w q.

(** Every path of the registry has a module record. *)
Definition registered_loaded (w : world) : Prop :=
  ∀ p s, reg_get p (cache w) = Some s → is_Some (require_cache w !! p).

(** The references of the module records point to objects, and so do those
    of the registry, none of which is the exports object of a module. *)
Definition copies_apart (w : world) : Prop :=
  (∀ p m, require_cache w !! p = Some m → exports m < length (heap w)) ∧
  (∀ p s, reg_get p (cache w) = Some s → s < length (heap w)) ∧
  (∀ p q s m, reg_get p (cache w) = Some s →
              require_cache w !! q = Some m → s ≠ exports m).

(** The module at [p], with record [m], can go back to the exports [E0]:
    they are its live exports if the path has no entry, and the properties
    of the saved copy, which is another object, if it has one. *)
Definition holds_original (p : string) (m : NodeModule) (E0 : obj)
    (w : world) : Prop :=
  require_cache w !! p = Some m ∧
  is_Some (heap w !! exports m) ∧
  match reg_get p (cache w) with
  | None => heap w !! exports m = Some E0
  | Some s => s ≠ exports m ∧ heap w !! s = Some E0
  end.

(** ** More about sequences of calls *)

(** The state after the calls [cs], made one after the other. *)
Definition run_calls (H : host) (cs : list call) (w : world) : world :=
  foldl (λ w c, after H c w) w cs.

(** Two records that differ at most in [exports]. *)
Definition same_module (m m' : NodeModule) : Prop :=
  mod_id m' = mod_id m ∧ filename m' = filename m ∧
  loaded m' = loaded m ∧ parent m' = parent m.

(** A host that also knows the built-in module [fs] and a file whose code
    throws when it runs. *)
Definition builtin_host : host :=
  {| resolve := λ s,
       if decide (s = "fs") then Some "fs"
       else if decide (s = "./broken.js") then Some "/test/broken.js"
       else resolve test_host s;
     source_of := λ p,
       if decide (p = "fs") then SrcBuiltin
       else if decide (p = "/test/broken.js") then SrcThrows
       else source_of test_host p;
     json_stringify_ok := json_stringify_ok test_host;
     this_module := this_module test_host;
     module_parent := module_parent test_host |}.

Ltac js_unfold :=
  unfold cacheMock, cacheMock_restore, cacheMock_require, restore_entry,
    host_require, require_resolve, stringify_for_log, spread, alloc,
    alloc_with, run_code,
    get_cached, set_cached, get_original, set_original, delete_original,
    object_keys, bind, ret, throw in *.
(** * Registry lemmas *)
Section registry_facts.
Implicit Types (r : registry) (k : string) (v : loc).

Lemma reg_get_app k r1 r2 :
  reg_get k (r1 ++ r2) =
    match reg_get k r1 with Some v => Some v | None => reg_get k r2 end.
Proof.
  induction r1 as [|[k' v'] r1 IH]; simpl; [done|].
  by destruct (decide (k' = k)).
Qed.

Lemma reg_get_add k k' v r :
  reg_get k (reg_add k' v r) =
    match reg_get k r with
    | Some x => Some x
    | None => if decide (k' = k) then Some v else None
    end.
Proof. unfold reg_add. by rewrite reg_get_app. Qed.

Lemma reg_get_delete k k' r :
  reg_get k (reg_delete k' r) =
    if decide (k' = k) then None else reg_get k r.
Proof.
  unfold reg_delete. induction r as [|[k1 v1] r IH]; simpl.
  - by destruct (decide (k' = k)).
  - rewrite filter_cons. simpl.
    destruct (decide (k1 ≠ k')) as [Hne|Heq]; simpl.
    + rewrite IH. destruct (decide (k1 = k)), (decide (k' = k)); congruence.
    + apply dec_stable in Heq. subst k1. rewrite IH.
      destruct (decide (k' = k)); done.
Qed.

Lemma reg_get_Some_keys k v r : reg_get k r = Some v → k ∈ reg_keys r.
Proof.
  unfold reg_keys. induction r as [|[k1 v1] r IH]; simpl; [done|].
  destruct (decide (k1 = k)) as [->|]; intros; [left | right; auto].
Qed.

Lemma reg_get_keys_Some k r : k ∈ reg_keys r → is_Some (reg_get k r).
Proof.
  unfold reg_keys. induction r as [|[k1 v1] r IH]; simpl.
  - intros Hin. inversion Hin.
  - destruct (decide (k1 = k)); [eauto|].
    intros Hin. apply IH. by inversion Hin; subst.
Qed.

Lemma reg_get_all_None r : (∀ k, reg_get k r = None) → r = [].
Proof.
  destruct r as [|[k v] r]; [done|]. intros Hn. specialize (Hn k).
  simpl in Hn. by rewrite decide_True in Hn.
Qed.
End registry_facts.

(** * How the operations run *)

Lemma restore_entry_run p w : restore_entry p w = (Return tt, restored p w).
Proof.
  unfold restored. js_unfold.
  destruct (require_cache w !! p), (reg_get p (cache w)); reflexivity.
Qed.

Lemma for_of_restore_run ks w :
  for_of ks restore_entry w = (Return tt, restore_loop ks w).
Proof.
  revert w. induction ks as [|k ks IH]; intros w; simpl; [done|].
  unfold bind. rewrite restore_entry_run. rewrite IH. reflexivity.
Qed.

Lemma restore_all_run H w :
  cacheMock_restore H None w =
    (Return tt, restore_loop (reg_keys (cache w)) w).
Proof.
  unfold cacheMock_restore, bind, object_keys. apply for_of_restore_run.
Qed.

Section calls.
Context (H : host).

Lemma restore_truthy_run path p w :
  truthy path = true → resolve H path = Some p →
  cacheMock_restore H (Some path) w = (Return tt, restored p w).
Proof.
  intros Ht Hr. unfold cacheMock_restore, bind. rewrite Ht.
  unfold require_resolve, bind. rewrite Hr. simpl.
  unfold bind. rewrite restore_entry_run. reflexivity.
Qed.

Lemma restore_falsy_run path w :
  truthy path = false →
  cacheMock_restore H (Some path) w = cacheMock_restore H None w.
Proof. intros Ht. unfold cacheMock_restore. by rewrite Ht. Qed.

(** * The restore loop *)

Lemma restored_heap p w : heap (restored p w) = heap w.
Proof.
  unfold restored.
  by destruct (require_cache w !! p), (reg_get p (cache w)).
Qed.

Lemma restored_effects p w : effects (restored p w) = effects w.
Proof.
  unfold restored.
  by destruct (require_cache w !! p), (reg_get p (cache w)).
Qed.

Lemma restored_cached p q w :
  require_cache (restored p w) !! q =
    match require_cache w !! q, reg_get q (cache w) with
    | Some m, Some o => if decide (p = q) then Some (set_exports m o) else Some m
    | c, _ => c
    end.
Proof.
  unfold restored. destruct (decide (p = q)) as [->|Hne].
  - destruct (require_cache w !! q) as [m|] eqn:Hc; [|by rewrite Hc].
    destruct (reg_get q (cache w)) eqn:Hg; simpl; [|by rewrite Hc].
    by rewrite lookup_insert_eq.
  - destruct (require_cache w !! p) as [m|] eqn:Hc,
      (reg_get p (cache w)) as [o|] eqn:Hg; simpl;
      rewrite ?lookup_insert_ne by done;
      by destruct (require_cache w !! q), (reg_get q (cache w)).
Qed.

Lemma restored_reg p q w :
  reg_get q (cache (restored p w)) =
    match require_cache w !! q with
    | Some _ => if decide (p = q) then None else reg_get q (cache w)
    | None => reg_get q (cache w)
    end.
Proof.
  unfold restored. destruct (decide (p = q)) as [->|Hne].
  - destruct (require_cache w !! q) as [m|] eqn:Hc; [|done].
    destruct (reg_get q (cache w)) eqn:Hg; simpl; [|done].
    by rewrite reg_get_delete, decide_True.
  - destruct (require_cache w !! p) as [m|] eqn:Hc,
      (reg_get p (cache w)) as [o|] eqn:Hg; simpl;
      rewrite ?reg_get_delete, ?decide_False by done;
      by destruct (require_cache w !! q).
Qed.

Lemma restore_loop_heap ks w : heap (restore_loop ks w) = heap w.
Proof.
  unfold restore_loop. revert w.
  induction ks as [|k ks IH]; intros w; simpl; [done|].
  by rewrite IH, restored_heap.
Qed.

Lemma restore_loop_effects ks w : effects (restore_loop ks w) = effects w.
Proof.
  unfold restore_loop. revert w.
  induction ks as [|k ks IH]; intros w; simpl; [done|].
  by rewrite IH, restored_effects.
Qed.

Lemma restore_loop_cached ks q w :
  require_cache (restore_loop ks w) !! q =
    match require_cache w !! q, reg_get q (cache w) with
    | Some m, Some o =>
        if decide (q ∈ ks) then Some (set_exports m o) else Some m
    | c, _ => c
    end.
Proof.
  unfold restore_loop. revert w.
  induction ks as [|k ks IH]; intros w; simpl.
  - destruct (require_cache w !! q), (reg_get q (cache w)); try done.
    all: by destruct (decide (q ∈ [])) as [?%elem_of_nil|].
  - rewrite IH, restored_cached, restored_reg.
    destruct (require_cache w !! q) as [m|] eqn:Hc; [|done].
    destruct (reg_get q (cache w)) as [o|] eqn:Hg.
    + destruct (decide (k = q)) as [->|Hne].
      * rewrite decide_True by left. done.
      * destruct (decide (q ∈ ks)).
        -- rewrite decide_True by (by right). done.
        -- rewrite decide_False; [done|].
           intros [?|?]%elem_of_cons; congruence.
    + by destruct (decide (k = q)).
Qed.

Lemma restore_loop_reg ks q w :
  reg_get q (cache (restore_loop ks w)) =
    match require_cache w !! q with
    | Some _ => if decide (q ∈ ks) then None else reg_get q (cache w)
    | None => reg_get q (cache w)
    end.
Proof.
  unfold restore_loop. revert w.
  induction ks as [|k ks IH]; intros w; simpl.
  - destruct (require_cache w !! q); [|done].
    by destruct (decide (q ∈ [])) as [?%elem_of_nil|].
  - rewrite IH, restored_cached, restored_reg.
    destruct (require_cache w !! q) as [m|] eqn:Hc; [|done].
    destruct (decide (k = q)) as [->|Hne].
    + rewrite (decide_True (P := q ∈ q :: ks)) by left.
      destruct (reg_get q (cache w)); by destruct (decide (q ∈ ks)).
    + assert (Hiff : q ∈ k :: ks ↔ q ∈ ks).
      { rewrite elem_of_cons. split; [intros [?|?]; [congruence|done]|by right]. }
      destruct (reg_get q (cache w)) as [o|] eqn:Hg;
        destruct (decide (q ∈ ks)), (decide (q ∈ k :: ks)); try done; tauto.
Qed.


(** * [Object.assign] *)

Lemma assigned_nil l w : assigned l [] w = w.
Proof.
  destruct w as [rc h a c e]. unfold assigned. simpl. f_equal.
  by apply list_alter_id.
Qed.

Lemma assigned_cons l k v source w :
  assigned l ((k, v) :: source) w =
    assigned l source
      (match set_outcome (attrs w !! l) (props (heap w) l) k v with
       | SetWrites =>
           {| require_cache := require_cache w;
              heap := alter (λ o, <[k := v]> o) l (heap w);
              attrs := attrs w; cache := cache w; effects := effects w |}
       | _ => w
       end).
Proof.
  unfold assigned.
  destruct (set_outcome (attrs w !! l) (props (heap w) l) k v) eqn:Hout;
    simpl; f_equal; rewrite ?list_alter_alter_eq;
    apply list_alter_ext; try done;
    intros o Ho; unfold merged, written, props in *; simpl;
    rewrite Ho in Hout; simpl in Hout; by rewrite Hout.
Qed.

Lemma assigned_app l source1 source2 w :
  assigned l (source1 ++ source2) w = assigned l source2 (assigned l source1 w).
Proof.
  unfold assigned. simpl. f_equal. rewrite list_alter_alter_eq.
  apply list_alter_ext; [|done]. intros o _. unfold merged. simpl.
  by rewrite foldl_app.
Qed.

(** The loop stops at the first assignment that throws: what it has done by
    then are the assignments of a prefix of the source. *)
Lemma assign_props_run l source w :
  ∃ pre suf,
    source = pre ++ suf ∧
    (assign_props l source w).2 = assigned l pre w ∧
    ((assign_props l source w).1 = Return tt ∧ suf = [] ∨
     (assign_props l source w).1 = Throw TypeError).
Proof.
  revert w. induction source as [|[k v] source IH]; intros w.
  - exists [], []. simpl. rewrite assigned_nil. auto.
  - simpl. unfold bind, set_property.
    pose proof (assigned_cons l k v) as Hcons.
    destruct (set_outcome (attrs w !! l) (props (heap w) l) k v) eqn:Hout.
    + exists [], ((k, v) :: source). simpl. rewrite assigned_nil. auto.
    + match goal with |- context [assign_props l source ?w1] =>
        destruct (IH w1) as (pre & suf & -> & Hst & Hres) end.
      exists ((k, v) :: pre), suf. split; [done|].
      split; [|done]. rewrite Hst, Hcons, Hout. done.
    + destruct (IH w) as (pre & suf & -> & Hst & Hres).
      exists ((k, v) :: pre), suf. split; [done|].
      split; [|done]. rewrite Hst, Hcons, Hout. done.
Qed.

Lemma object_assign_run l source w :
  ∃ pre suf,
    source = pre ++ suf ∧
    (object_assign l source w).2 = assigned l pre w ∧
    ((object_assign l source w).1 = Return tt ∧ suf = [] ∧
       is_Some (heap w !! l) ∨
     (object_assign l source w).1 = Throw TypeError).
Proof.
  unfold object_assign. destruct (heap w !! l) as [o|] eqn:Ho.
  - destruct (assign_props_run l source w) as (pre & suf & ? & ? & Hres).
    exists pre, suf. repeat (split; [done|]).
    destruct Hres as [[? ?]|?]; [left|right]; eauto.
  - exists [], source. simpl. rewrite assigned_nil. auto.
Qed.






(** * How [cacheMock] runs *)

Lemma cacheMock_unprintable path ov w :
  json_stringify_ok H (heap w) ov = false →
  cacheMock H path ov w = (Throw TypeError, w).
Proof.
  intros Hj. unfold cacheMock, stringify_for_log, bind. by rewrite Hj.
Qed.

Lemma cacheMock_unresolved path ov w :
  json_stringify_ok H (heap w) ov = true →
  resolve H path = None →
  cacheMock H path ov w = (Throw ResolutionError, w).
Proof.
  intros Hj Hr. unfold cacheMock, stringify_for_log, require_resolve, bind.
  by rewrite Hj, Hr.
Qed.

Lemma cacheMock_cached_run path ov p m w :
  json_stringify_ok H (heap w) ov = true →
  resolve H path = Some p →
  require_cache w !! p = Some m →
  cacheMock H path ov w = object_assign (exports m) ov (snapshotted p m w).
Proof.
  intros Hj Hr Hc. unfold snapshotted. js_unfold.
  rewrite Hj, Hr. simpl. repeat (rewrite Hc; simpl).
  destruct (reg_get p (cache w)); simpl;
    by destruct (object_assign _ _ _) as [[[]|?] ?].
Qed.

Lemma cacheMock_uncached_run path ov p w :
  json_stringify_ok H (heap w) ov = true →
  resolve H path = Some p →
  require_cache w !! p = None →
  cacheMock H path ov w =
    match host_require H p w with
    | (Throw e, w1) => (Throw e, w1)
    | (Return _, w1) =>
        match require_cache w1 !! p with
        | None => (Throw TypeError, w1)
        | Some m => object_assign (exports m) ov (snapshotted p m w1)
        end
    end.
Proof.
  intros Hj Hr Hc. unfold cacheMock, stringify_for_log, require_resolve.
  unfold bind at 1. rewrite Hj, Hr.
  unfold bind at 1, ret at 1, bind at 1, get_cached at 1. rewrite Hc.
  unfold bind at 1. destruct (host_require H p w) as [[[]|e] w1]; [|done].
  unfold bind at 1, get_cached at 1.
  destruct (require_cache w1 !! p) as [m|]; [|done].
  unfold snapshotted.
  unfold bind, get_original, spread, alloc, alloc_with, set_original, ret.
  destruct (reg_get p (cache w1)); simpl;
    by destruct (object_assign _ _ _) as [[[]|?] ?].
Qed.

Lemma host_require_exports p init a w :
  source_of H p = SrcExports init a →
  host_require H p w =
    (Return tt,
     {| require_cache :=
          <[p := {| mod_id := p; filename := Some p; loaded := true;
                    exports := length (heap w);
                    parent := Some (this_module H) |}]> (require_cache w);
        heap := heap w ++ [init];
        attrs := match a with
                 | Some a => <[length (heap w) := a]> (attrs w)
                 | None => delete (length (heap w)) (attrs w)
                 end;
        cache := cache w;
        effects := effects w ++ [p] |}).
Proof. intros Hsrc. unfold host_require. by rewrite Hsrc. Qed.

(** The three ways a call of [cacheMock] can go: it throws before anything
    has changed; the code of the module throws; or, with a module record at
    hand (there before, or made by [require]), line 44 runs and then the
    assignments of line 46, all of them or up to one that throws. *)
Lemma cacheMock_state path ov w :
  (∃ e, cacheMock H path ov w = (Throw e, w) ∧
        (e = TypeError ∨ e = ResolutionError ∧ resolve H path = None)) ∨
  (∃ p, resolve H path = Some p ∧ require_cache w !! p = None ∧
        cacheMock H path ov w = (Throw LoadError, (run_code p w).2)) ∨
  (∃ p m w1 pre suf,
     json_stringify_ok H (heap w) ov = true ∧
     resolve H path = Some p ∧
     (require_cache w !! p = Some m ∧ w1 = w ∨
      require_cache w !! p = None ∧ require_cache w1 !! p = Some m ∧
        host_require H p w = (Return tt, w1) ∧
        ∃ init a, source_of H p = SrcExports init a) ∧
     ov = pre ++ suf ∧
     (cacheMock H path ov w).2
       = assigned (exports m) pre (snapshotted p m w1) ∧
     ((cacheMock H path ov w).1 = Return tt ∧ suf = [] ∧
        is_Some (heap (snapshotted p m w1) !! exports m) ∨
      (cacheMock H path ov w).1 = Throw TypeError)).
Proof.
  destruct (json_stringify_ok H (heap w) ov) eqn:Hj;
    [|left; rewrite cacheMock_unprintable by done; eauto].
  destruct (resolve H path) as [p|] eqn:Hr;
    [|left; rewrite cacheMock_unresolved by done; eauto].
  destruct (require_cache w !! p) as [m|] eqn:Hc.
  - right; right. rewrite (cacheMock_cached_run path ov p m w Hj Hr Hc).
    destruct (object_assign_run (exports m) ov (snapshotted p m w))
      as (pre & suf & ? & ? & ?).
    exists p, m, w, pre, suf. eauto 10.
  - rewrite (cacheMock_uncached_run path ov p w Hj Hr Hc).
    destruct (source_of H p) as [| |init a] eqn:Hsrc.
    + right; left. exists p. unfold host_require. rewrite Hsrc. eauto.
    + left. unfold host_require. rewrite Hsrc. simpl. rewrite Hc. eauto.
    + right; right. rewrite (host_require_exports p init a w Hsrc).
      cbn [require_cache]. rewrite lookup_insert_eq.
      match goal with |- context [object_assign ?e ov (snapshotted p ?m ?w1)] =>
        destruct (object_assign_run e ov (snapshotted p m w1))
          as (pre & suf & ? & ? & ?);
        exists p, m, w1, pre, suf end.
      repeat (split; [done|]). split; [|by eauto].
      right. split; [done|]. split; [apply lookup_insert_eq|].
      split; [by apply host_require_exports|by exists init, a].
Qed.
(** * Snapshot and merge *)

Lemma snapshotted_cached p m w :
  require_cache (snapshotted p m w) = require_cache w.
Proof. unfold snapshotted. by destruct (reg_get p (cache w)). Qed.

Lemma snapshotted_effects p m w : effects (snapshotted p m w) = effects w.
Proof. unfold snapshotted. by destruct (reg_get p (cache w)). Qed.

Lemma snapshotted_heap_old p m w l o :
  heap w !! l = Some o → heap (snapshotted p m w) !! l = Some o.
Proof.
  intros Hl. unfold snapshotted. destruct (reg_get p (cache w)); simpl; [done|].
  by apply lookup_app_l_Some.
Qed.

Lemma snapshotted_length p m w :
  length (heap w) ≤ length (heap (snapshotted p m w)).
Proof.
  unfold snapshotted. destruct (reg_get p (cache w)); simpl; [done|].
  rewrite length_app. lia.
Qed.

Lemma snapshotted_kept p m w s :
  reg_get p (cache w) = Some s → snapshotted p m w = w.
Proof. intros Hg. unfold snapshotted. by rewrite Hg. Qed.

Lemma snapshotted_fresh p m w :
  reg_get p (cache w) = None →
  reg_get p (cache (snapshotted p m w)) = Some (length (heap w)) ∧
  heap (snapshotted p m w) !! length (heap w) =
    Some (props (heap w) (exports m)).
Proof.
  intros Hg. unfold snapshotted. rewrite Hg. simpl. split.
  - by rewrite reg_get_add, Hg, decide_True.
  - rewrite lookup_app_r by done. by rewrite Nat.sub_diag.
Qed.

Lemma snapshotted_reg_other p q m w :
  p ≠ q → reg_get q (cache (snapshotted p m w)) = reg_get q (cache w).
Proof.
  intros Hne. unfold snapshotted. destruct (reg_get p (cache w)); simpl; [done|].
  rewrite reg_get_add, decide_False by done. by destruct (reg_get q (cache w)).
Qed.


Lemma assigned_heap_target e ov w o :
  heap w !! e = Some o →
  heap (assigned e ov w) !! e = Some (merged (attrs w !! e) ov o).
Proof.
  intros He. unfold assigned. cbn [heap].
  by rewrite list_lookup_alter_eq, He.
Qed.

Lemma assigned_heap_other e ov w l :
  l ≠ e → heap (assigned e ov w) !! l = heap w !! l.
Proof.
  intros Hne. unfold assigned. cbn [heap].
  by rewrite list_lookup_alter_ne.
Qed.

Lemma assigned_length e ov w : length (heap (assigned e ov w)) = length (heap w).
Proof. unfold assigned. cbn [heap]. apply length_alter. Qed.

(** [restore] for a path that has a record and a saved copy, whether the
    path is truthy (one entry) or the empty string (all entries). *)
Lemma restore_swaps path p m s w :
  resolve H path = Some p →
  require_cache w !! p = Some m →
  reg_get p (cache w) = Some s →
  ∃ w', cacheMock_restore H (Some path) w = (Return tt, w') ∧
        require_cache w' !! p = Some (set_exports m s) ∧
        reg_get p (cache w') = None ∧
        heap w' = heap w.
Proof.
  intros Hr Hc Hg. destruct (truthy path) eqn:Ht.
  - exists (restored p w). split; [by apply restore_truthy_run|].
    rewrite restored_cached, restored_reg, restored_heap, Hc, Hg.
    by rewrite !decide_True.
  - exists (restore_loop (reg_keys (cache w)) w).
    split; [by rewrite restore_falsy_run, restore_all_run|].
    rewrite restore_loop_cached, restore_loop_reg, restore_loop_heap, Hc, Hg.
    by rewrite !decide_True by eauto using reg_get_Some_keys.
Qed.


(** * Mocking one module, and restoring it *)

Lemma snapshotted_has_entry p m w :
  is_Some (reg_get p (cache (snapshotted p m w))).
Proof.
  destruct (reg_get p (cache w)) as [s|] eqn:Hp.
  - rewrite (snapshotted_kept p m w s Hp). eauto.
  - destruct (snapshotted_fresh p m w Hp) as [-> _]. eauto.
Qed.

(** Line 44 and any part of line 46 leave the way back to [E0] open. *)
Lemma holds_original_assigned p m E0 pre w :
  holds_original p m E0 w →
  holds_original p m E0 (assigned (exports m) pre (snapshotted p m w)) ∧
  is_Some (reg_get p (cache (assigned (exports m) pre (snapshotted p m w)))) ∧
  ∀ s, reg_get p (cache w) = Some s →
       reg_get p (cache (assigned (exports m) pre (snapshotted p m w)))
         = Some s.
Proof.
  intros (Hc & [o Ho] & Horig).
  assert (Hlt : exports m < length (heap w)) by by eapply lookup_lt_Some.
  split; [|split; [apply snapshotted_has_entry|]].
  - split; [by rewrite <- (snapshotted_cached p m w) in Hc|]. split.
    + erewrite assigned_heap_target; [eauto|]. by apply snapshotted_heap_old.
    + cbn [cache assigned].
      destruct (reg_get p (cache w)) as [s|] eqn:Hg.
      * rewrite (snapshotted_kept p m w s Hg), Hg.
        destruct Horig as [Hne Hs]. split; [done|].
        by rewrite assigned_heap_other.
      * destruct (snapshotted_fresh p m w Hg) as [-> Hh].
        split; [lia|]. rewrite assigned_heap_other by lia.
        rewrite Hh. unfold props. by rewrite Ho, <- Horig, Ho.
  - intros s Hg. by rewrite (snapshotted_kept p m w s Hg).
Qed.

(** Whatever a mock of the module does, returning or throwing. *)
Lemma holds_original_mock path ov p m E0 w :
  resolve H path = Some p →
  holds_original p m E0 w →
  holds_original p m E0 (cacheMock H path ov w).2 ∧
  ∀ s, reg_get p (cache w) = Some s →
       reg_get p (cache (cacheMock H path ov w).2) = Some s.
Proof.
  intros Hr Hinv. pose proof Hinv as (Hc & _ & _).
  destruct (cacheMock_state path ov w)
    as [(e & -> & _)|[(p' & Hr' & Hc' & _)|
        (p' & m' & w1 & pre & suf & _ & Hr' & Hw1 & _ & -> & _)]];
    [done|congruence|].
  assert (p' = p) as -> by congruence.
  destruct Hw1 as [[Hc' ->]|[Hc' _]]; [|congruence].
  assert (m' = m) as -> by congruence.
  destruct (holds_original_assigned p m E0 pre w Hinv) as (? & _ & ?).
  done.
Qed.

Lemma holds_original_mocks path ovs p m E0 w :
  resolve H path = Some p →
  holds_original p m E0 w →
  holds_original p m E0 (run_calls H (CallMock path <$> ovs) w) ∧
  ∀ s, reg_get p (cache w) = Some s →
       reg_get p (cache (run_calls H (CallMock path <$> ovs) w)) = Some s.
Proof.
  intros Hr. unfold run_calls. revert w.
  induction ovs as [|ov ovs IH]; intros w Hinv; simpl; [done|].
  destruct (holds_original_mock path ov p m E0 w Hr Hinv) as [Hinv1 Hkeep1].
  destruct (IH _ Hinv1) as [Hinv2 Hkeep2]. split; [done|]. eauto.
Qed.

(** A printable mock of a loaded module stores the entry, whether the
    assignments go through or not. *)
Lemma printable_mock_has_entry path ov p m w :
  json_stringify_ok H (heap w) ov = true →
  resolve H path = Some p →
  require_cache w !! p = Some m →
  is_Some (reg_get p (cache (cacheMock H path ov w).2)).
Proof.
  intros Hj Hr Hc. rewrite (cacheMock_cached_run path ov p m w Hj Hr Hc).
  destruct (object_assign_run (exports m) ov (snapshotted p m w))
    as (pre & suf & _ & -> & _).
  apply snapshotted_has_entry.
Qed.


(** [restore] on a module that holds its original. *)
Lemma holds_original_restore path p m E0 w :
  resolve H path = Some p →
  holds_original p m E0 w →
  (cacheMock_restore H (Some path) w).1 = Return tt ∧
  live (cacheMock_restore H (Some path) w).2 p = Some E0 ∧
  reg_get p (cache (cacheMock_restore H (Some path) w).2) = None.
Proof.
  intros Hr (Hc & _ & Horig).
  destruct (reg_get p (cache w)) as [s|] eqn:Hg.
  - destruct Horig as [_ Hs].
    destruct (restore_swaps path p m s w Hr Hc Hg)
      as (w' & -> & Hc' & Hg' & Hh). simpl.
    split; [done|]. split; [|done]. unfold live. rewrite Hc'. simpl.
    by rewrite Hh.
  - destruct (truthy path) eqn:Ht.
    + rewrite (restore_truthy_run path p w Ht Hr). simpl.
      unfold restored. rewrite Hc, Hg. split; [done|].
      split; [|done]. unfold live. by rewrite Hc.
    + rewrite restore_falsy_run, restore_all_run by done. simpl.
      split; [done|]. unfold live.
      rewrite restore_loop_cached, restore_loop_reg, restore_loop_heap.
      rewrite Hc, Hg. simpl. split; [done|]. by case_decide.
Qed.



(** C2 (first mock wins): mock a loaded, unmocked module, mock it again any
    number of times and restore it: whatever each mock did, [restore]
    returns and brings back the exports from before the first mock; the
    entry the first mock left, which it leaves whenever [JSON.stringify]
    accepts its mapping, holds these exports, and the later mocks leave that
    same entry, with the same contents. *)
Theorem first_mock_wins path ov1 ovs p E0 w :
  resolve H path = Some p →
  live w p = Some E0 →
  reg_get p (cache w) = None →
  let w1 := (cacheMock H path ov1 w).2 in
  let w2 := run_calls H (CallMock path <$> ovs) w1 in
  let r3 := cacheMock_restore H (Some path) w2 in
  r3.1 = Return tt ∧
  live r3.2 p = Some E0 ∧
  (∀ s, reg_get p (cache w1) = Some s →
        heap w1 !! s = Some E0 ∧
        reg_get p (cache w2) = Some s ∧
        heap w2 !! s = Some E0) ∧
  (json_stringify_ok H (heap w) ov1 = true →
   is_Some (reg_get p (cache w1))).
Proof.
  intros Hr Hl Hg. simpl. unfold live in Hl.
  destruct (require_cache w !! p) as [m|] eqn:Hc; [|done]. simpl in Hl.
  assert (Hinv : holds_original p m E0 w).
  { split; [done|]. split; [eauto|]. by rewrite Hg. }
  destruct (holds_original_mock path ov1 p m E0 w Hr Hinv) as [Hinv1 _].
  destruct (holds_original_mocks path ovs p m E0 _ Hr Hinv1)
    as [Hinv2 Hkeep2].
  destruct (holds_original_restore path p m E0 _ Hr Hinv2) as (? & ? & _).
  split; [done|]. split; [done|]. split.
  - intros s Hs. pose proof (Hkeep2 s Hs) as Hs2.
    destruct Hinv1 as (_ & _ & Ho1). destruct Hinv2 as (_ & _ & Ho2).
    rewrite Hs in Ho1. rewrite Hs2 in Ho2. by destruct Ho1, Ho2.
  - intros Hj. by eapply printable_mock_has_entry.
Qed.

(** C10 (reference swap): [restore] makes the record's [exports] the saved
    copy itself and removes the entry; no object on the heap changes and
    none is created, so the object that was live before still has the
    properties it had, for whoever holds a reference to it. *)
Theorem restore_swaps_reference path p m s w :
  resolve H path = Some p →
  require_cache w !! p = Some m →
  reg_get p (cache w) = Some s →
  ∃ w' m',
    cacheMock_restore H (Some path) w = (Return tt, w') ∧
    require_cache w' !! p = Some m' ∧
    exports m' = s ∧
    reg_get p (cache w') = None ∧
    heap w' = heap w ∧
    props (heap w') (exports m) = props (heap w) (exports m).
Proof.
  intros Hr Hc Hg.
  destruct (restore_swaps path p m s w Hr Hc Hg)
    as (w' & Hrun & Hc' & Hg' & Hh).
  exists w', (set_exports m s). by rewrite Hh.
Qed.
(** * Errors *)

Lemma truthy_false path : truthy path = false ↔ path = "".
Proof. by destruct path. Qed.

Lemma host_require_outcome p w :
  (host_require H p w).1 = Return tt ∨ (host_require H p w).1 = Throw LoadError.
Proof. js_unfold. destruct (source_of H p); simpl; auto. Qed.


Lemma restore_unresolved path w :
  truthy path = true → resolve H path = None →
  cacheMock_restore H (Some path) w = (Throw ResolutionError, w).
Proof. intros Ht Hr. js_unfold. by rewrite Ht, Hr. Qed.

Lemma cacheMock_require_outcome modulePath exports_arg w :
  (cacheMock_require H modulePath exports_arg w).1 = Return RUndefined ∨
  (cacheMock_require H modulePath exports_arg w).1 = Throw ResolutionError.
Proof.
  js_unfold. destruct (resolve H modulePath) as [p|], exports_arg as [l|];
    simpl; try (by right);
    destruct (require_cache w !! p); simpl; by left.
Qed.

(** C9 (falsy path): [restore] with the empty string does just what
    [restore()] does, on any host, whatever its resolver says: it returns
    normally after the loop over every key of the registry, and every entry
    that has a module record is restored and removed. *)
Theorem restore_falsy_is_restore_all H' path w :
  truthy path = false →
  cacheMock_restore H (Some path) w = cacheMock_restore H' None w ∧
  cacheMock_restore H (Some path) w =
    (Return tt, restore_loop (reg_keys (cache w)) w) ∧
  ∀ q m s,
    require_cache w !! q = Some m →
    reg_get q (cache w) = Some s →
    let w' := (cacheMock_restore H (Some path) w).2 in
    require_cache w' !! q = Some (set_exports m s) ∧
    reg_get q (cache w') = None.
Proof.
  intros Ht. rewrite (restore_falsy_run path w Ht), !restore_all_run.
  split; [done|]. split; [done|]. intros q m s Hc Hg. simpl.
  rewrite restore_loop_cached, restore_loop_reg, Hc, Hg.
  by rewrite !decide_True by eauto using reg_get_Some_keys.
Qed.


(** C8: [cacheMock.require] never evaluates to a module record: whatever the
    arguments and the state, it returns [undefined] or throws. *)
Theorem preload_returns_no_record modulePath exports_arg w :
  ∀ m, (cacheMock_require H modulePath exports_arg w).1 ≠ Return (RModule m).
Proof.
  intros m Hm.
  destruct (cacheMock_require_outcome modulePath exports_arg w) as [Ho|Ho];
    rewrite Ho in Hm; discriminate Hm.
Qed.


(** * Preloading *)

(** C7 (preload): for a path that resolves, [cacheMock.require] returns
    normally, runs no module code and leaves the registry and every existing
    object alone.  If the path already has a module record, [require.cache]
    is unchanged.  Otherwise exactly one record is added, at that path,
    marked loaded, whose [exports] is the very object passed in, or a new
    empty object when none was passed. *)
Theorem preload_contract modulePath exports_arg p w :
  resolve H modulePath = Some p →
  ∃ r w',
    cacheMock_require H modulePath exports_arg w = (Return r, w') ∧
    effects w' = effects w ∧
    cache w' = cache w ∧
    (∀ l o, heap w !! l = Some o → heap w' !! l = Some o) ∧
    match require_cache w !! p with
    | Some _ => require_cache w' = require_cache w
    | None =>
        ∃ m,
          require_cache w' = <[p := m]> (require_cache w) ∧
          loaded m = true ∧ mod_id m = p ∧ filename m = Some p ∧
          match exports_arg with
          | Some l => exports m = l ∧ heap w' = heap w
          | None =>
              heap w !! exports m = None ∧
              heap w' !! exports m = Some ∅ ∧
              heap w' = heap w ++ [∅]
          end
    end.
Proof.
  intros Hr. js_unfold. rewrite Hr.
  destruct exports_arg as [l|]; simpl;
    destruct (require_cache w !! p) as [m|] eqn:Hc; simpl;
    eexists _, _; (split; [reflexivity|]); simpl;
    repeat (split; [done || (intros; by apply lookup_app_l_Some)|]);
    try done.
  - eexists. repeat split; done.
  - eexists. repeat split; try done; simpl.
    + by apply lookup_ge_None.
    + rewrite lookup_app_r by done. by rewrite Nat.sub_diag.
Qed.


(** * Pre-mock states are kept *)

Lemma keeps_refl w : separated w → keeps w w.
Proof. intros Hs. split; [done|]. intros q Hq. done. Qed.

Lemma keeps_trans w1 w2 w3 : keeps w1 w2 → keeps w2 w3 → keeps w1 w3.
Proof.
  intros [_ H12] [Hs H23]. split; [done|]. intros q Hq.
  destruct (H12 q Hq) as [Hq2 Heq2]. destruct (H23 q Hq2) as [Hq3 Heq3].
  split; [done|]. congruence.
Qed.

Lemma keeps_run_code p w : separated w → keeps w (run_code p w).2.
Proof. intros [? ? ? ? ?]. split; [by split|]. intros q Hq. done. Qed.

Lemma pre_mock_state_app w w' q :
  separated w →
  require_cache w' = require_cache w → cache w' = cache w →
  (∃ extra, heap w' = heap w ++ extra) →
  pre_mock_state w' q = pre_mock_state w q.
Proof.
  intros Hs Hc Hg [extra Hh]. unfold pre_mock_state, live.
  rewrite Hc, Hg, Hh. destruct (reg_get q (cache w)) as [s|] eqn:Hq.
  - apply lookup_app_l. by eapply sep_saved_valid.
  - destruct (require_cache w !! q) as [m|] eqn:Hm; [|done]. simpl.
    apply lookup_app_l. by eapply sep_exports_valid.
Qed.

Lemma separated_app w w' :
  separated w →
  require_cache w' = require_cache w → cache w' = cache w →
  (∃ extra, heap w' = heap w ++ extra) →
  separated w'.
Proof.
  intros [H1 H2 H3 H4 H5] Hc Hg [extra Hh].
  split; rewrite ?Hc, ?Hg, ?Hh, ?length_app; eauto.
  - intros p m Hm. specialize (H1 p m Hm). lia.
  - intros p s Hp. specialize (H2 p s Hp). lia.
Qed.

Lemma keeps_alloc_with o a w :
  separated w → keeps w (alloc_with o a w).2.
Proof.
  intros Hs. split.
  - apply (separated_app w); [done|done|done|by exists [o]].
  - intros q Hq. split; [done|].
    apply pre_mock_state_app; [done|done|done|by exists [o]].
Qed.

Lemma keeps_alloc o w : separated w → keeps w (alloc o w).2.
Proof. apply keeps_alloc_with. Qed.

Lemma alloc_unaliased o a w :
  separated w → unaliased (alloc_with o a w).2 (length (heap w)).
Proof.
  intros Hs. repeat split; simpl.
  - rewrite length_app. simpl. lia.
  - intros q m Hm Heq. apply (sep_exports_valid w Hs) in Hm. lia.
  - intros q s Hq Heq. apply (sep_saved_valid w Hs) in Hq. lia.
Qed.

Lemma unaliased_run_code p w l : unaliased w l → unaliased (run_code p w).2 l.
Proof. done. Qed.

(** A record for a path that has none, around an object not in use. *)
Lemma keeps_set_cached p m w :
  separated w → require_cache w !! p = None → unaliased w (exports m) →
  keeps w (set_cached p m w).2.
Proof.
  intros Hs Hp (Hlt & Hlive & Hsaved). split.
  - destruct Hs as [H1 H2 H3 H4 H5]. split; simpl; eauto.
    + intros q n. rewrite lookup_insert. case_decide; [|by eauto].
      by intros [= <-].
    + intros q1 q2 n1 n2. rewrite !lookup_insert.
      repeat case_decide; subst; try done.
      * intros [= <-] Hn Heq. symmetry in Heq. by apply Hlive in Hn.
      * intros Hn [= <-] Heq. by apply Hlive in Hn.
      * eauto.
    + intros q1 q2 s n Hq1. rewrite lookup_insert.
      case_decide; [|by eauto]. intros [= <-]. by eapply Hsaved.
  - intros q Hq. assert (p ≠ q).
    { intros ->. rewrite Hp in Hq. by destruct Hq. }
    unfold pre_mock_state, live. simpl.
    by rewrite lookup_insert_ne.
Qed.

Lemma keeps_snapshotted p m w :
  separated w → require_cache w !! p = Some m →
  keeps w (snapshotted p m w).
Proof.
  intros Hs Hm. unfold snapshotted.
  destruct (reg_get p (cache w)) as [s|] eqn:Hp; [by apply keeps_refl|].
  pose proof (sep_exports_valid w Hs p m Hm) as Hlt.
  split.
  - destruct Hs as [H1 H2 H3 H4 H5]. split; simpl.
    + intros q n Hn. rewrite length_app. specialize (H1 q n Hn). lia.
    + intros q s. rewrite reg_get_add, length_app. simpl.
      destruct (reg_get q (cache w)) eqn:Hq.
      * intros [= <-]. apply H2 in Hq. lia.
      * case_decide; [|done]. intros [= <-]. lia.
    + eauto.
    + intros q1 q2 s n. rewrite reg_get_add.
      destruct (reg_get q1 (cache w)) eqn:Hq1.
      * intros [= <-]. eauto.
      * case_decide; [|done]. intros [= <-] Hn Heq.
        apply H1 in Hn. lia.
    + intros q1 q2 s t. rewrite !reg_get_add.
      destruct (reg_get q1 (cache w)) as [s1|] eqn:Hq1,
        (reg_get q2 (cache w)) as [s2|] eqn:Hq2.
      * intros [= <-] [= <-]. eauto.
      * intros [= <-]. case_decide; [|done]. intros [= <-] Heq.
        apply H2 in Hq1. lia.
      * case_decide; [|done]. intros [= <-] [= <-] Heq.
        apply H2 in Hq2. lia.
      * repeat case_decide; try done. congruence.
  - intros q Hq. split; [done|]. unfold pre_mock_state, live. simpl.
    rewrite reg_get_add. destruct (reg_get q (cache w)) as [s|] eqn:Hg.
    + apply lookup_app_l. by eapply sep_saved_valid.
    + case_decide as Hpq.
      * subst q. rewrite Hm. simpl.
        rewrite lookup_app_r by done. rewrite Nat.sub_diag. simpl.
        unfold props. by destruct (heap w !! exports m) eqn:He;
          [|apply lookup_ge_None in He; lia].
      * destruct (require_cache w !! q) as [n|] eqn:Hn; [|done]. simpl.
        apply lookup_app_l. by eapply sep_exports_valid.
Qed.

Lemma keeps_assigned p m s ov w :
  separated w → require_cache w !! p = Some m → reg_get p (cache w) = Some s →
  keeps w (assigned (exports m) ov w).
Proof.
  intros Hs Hm Hp. split.
  - destruct Hs as [H1 H2 H3 H4 H5].
    split; unfold assigned; simpl; rewrite ?length_alter; eauto.
  - intros q Hq. split; [done|]. unfold pre_mock_state, live, assigned.
    simpl. destruct (reg_get q (cache w)) as [t|] eqn:Hg.
    + apply list_lookup_alter_ne. intros Heq.
      by eapply (sep_saved_live w Hs q p t m).
    + destruct (require_cache w !! q) as [n|] eqn:Hn; [|done]. simpl.
      apply list_lookup_alter_ne. intros Heq.
      assert (p = q) by by eapply (sep_exports_inj w Hs p q m n).
      congruence.
Qed.

Lemma keeps_restored p w : separated w → keeps w (restored p w).
Proof.
  intros Hs. unfold restored.
  destruct (require_cache w !! p) as [m|] eqn:Hm; [|by apply keeps_refl].
  destruct (reg_get p (cache w)) as [s|] eqn:Hp; [|by apply keeps_refl].
  split.
  - destruct Hs as [H1 H2 H3 H4 H5]. split; simpl.
    + intros q n. rewrite lookup_insert. case_decide; [|by eauto].
      intros [= <-]. simpl. eauto.
    + intros q t. rewrite reg_get_delete. case_decide; [done|]. eauto.
    + intros q1 q2 n1 n2. rewrite !lookup_insert.
      repeat case_decide; subst; try done.
      * intros [= <-] Hn. simpl. intros Heq. by destruct (H4 _ _ _ _ Hp Hn).
      * intros Hn [= <-]. simpl. intros Heq.
        symmetry in Heq. by destruct (H4 _ _ _ _ Hp Hn).
      * eauto.
    + intros q1 q2 t n. rewrite reg_get_delete, lookup_insert.
      case_decide; [done|]. case_decide; [|by eauto].
      intros Hq1 [= <-]. simpl. intros Heq. subst t.
      by assert (q1 = p) by by eapply (H5 q1 p s s).
    + intros q1 q2 t1 t2. rewrite !reg_get_delete.
      repeat case_decide; try done. eauto.
  - intros q Hq. unfold pre_mock_state, live. simpl.
    rewrite reg_get_delete, lookup_insert. case_decide as Hpq.
    + subst q. rewrite Hp. split; [by eauto|]. done.
    + split; [done|]. done.
Qed.

Lemma keeps_restore_loop ks w : separated w → keeps w (restore_loop ks w).
Proof.
  unfold restore_loop. revert w.
  induction ks as [|k ks IH]; intros w Hs; simpl; [by apply keeps_refl|].
  eapply keeps_trans; [by apply keeps_restored|].
  apply IH. by apply keeps_restored.
Qed.

(** * Each call keeps the pre-mock states *)

Lemma host_require_cache p w : cache (host_require H p w).2 = cache w.
Proof. js_unfold. by destruct (source_of H p). Qed.

Lemma host_require_cached p q w :
  is_Some (require_cache w !! q) →
  is_Some (require_cache (host_require H p w).2 !! q).
Proof.
  intros Hq. js_unfold. destruct (source_of H p); simpl; try done.
  rewrite lookup_insert. by case_decide.
Qed.

Lemma keeps_host_require p w :
  separated w → require_cache w !! p = None →
  keeps w (host_require H p w).2.
Proof.
  intros Hs Hp. unfold host_require.
  destruct (source_of H p) as [| |init a].
  - by apply keeps_run_code.
  - by apply keeps_refl.
  - pose proof (keeps_run_code p w Hs) as K1.
    pose proof (keeps_alloc_with init a _ (proj1 K1)) as K2.
    eapply keeps_trans; [exact K1|]. eapply keeps_trans; [exact K2|].
    apply (keeps_set_cached p _ (alloc_with init a (run_code p w).2).2).
    + exact (proj1 K2).
    + done.
    + apply (alloc_unaliased init a (run_code p w).2). exact (proj1 K1).
Qed.

Lemma keeps_mock_loaded p m ov w :
  separated w → require_cache w !! p = Some m →
  keeps w (assigned (exports m) ov (snapshotted p m w)).
Proof.
  intros Hs Hm. pose proof (keeps_snapshotted p m w Hs Hm) as K1.
  eapply keeps_trans; [exact K1|].
  destruct (snapshotted_has_entry p m w) as [s Hp].
  apply (keeps_assigned p m s); [exact (proj1 K1)| |done].
  by rewrite snapshotted_cached.
Qed.

Lemma keeps_cacheMock path ov w :
  separated w → keeps w (cacheMock H path ov w).2.
Proof.
  intros Hs.
  destruct (cacheMock_state path ov w)
    as [(e & -> & _)|[(p & _ & _ & ->)|
        (p & m & w1 & pre & suf & _ & _ & Hw1 & _ & -> & _)]].
  - by apply keeps_refl.
  - by apply keeps_run_code.
  - destruct Hw1 as [[Hc ->]|(Hc & Hm & Hrun & _)].
    + by apply keeps_mock_loaded.
    + pose proof (keeps_host_require p w Hs Hc) as K1.
      rewrite Hrun in K1. simpl in K1.
      eapply keeps_trans; [exact K1|].
      apply keeps_mock_loaded; [exact (proj1 K1)|done].
Qed.

Lemma keeps_cacheMock_restore path w :
  separated w → keeps w (cacheMock_restore H path w).2.
Proof.
  intros Hs. destruct path as [path|].
  - destruct (truthy path) eqn:Ht.
    + destruct (resolve H path) as [p|] eqn:Hr.
      * rewrite (restore_truthy_run path p w Ht Hr). by apply keeps_restored.
      * rewrite restore_unresolved by done. by apply keeps_refl.
    + rewrite restore_falsy_run, restore_all_run by done.
      by apply keeps_restore_loop.
  - rewrite restore_all_run. by apply keeps_restore_loop.
Qed.

Lemma keeps_cacheMock_require modulePath exports_arg w :
  separated w → call_ok w (CallRequire modulePath exports_arg) →
  keeps w (cacheMock_require H modulePath exports_arg w).2.
Proof.
  intros Hs Hok. unfold cacheMock_require, require_resolve.
  destruct exports_arg as [l|]; simpl in Hok.
  - unfold bind at 1, ret at 1.
    destruct (resolve H modulePath) as [p|]; [|by apply keeps_refl].
    unfold bind at 1, ret at 1, bind at 1, get_cached at 1.
    destruct (require_cache w !! p) as [m|] eqn:Hc;
      [by apply keeps_refl|].
    unfold bind, ret.
    by apply (keeps_set_cached p _ w).
  - pose proof (keeps_alloc ∅ w Hs) as K1.
    unfold bind at 1. unfold alloc at 1.
    destruct (resolve H modulePath) as [p|]; [|exact K1].
    unfold bind at 1, ret at 1, bind at 1, get_cached at 1.
    simpl.
    destruct (require_cache w !! p) as [m|] eqn:Hc; [exact K1|].
    eapply keeps_trans; [exact K1|]. unfold bind, ret.
    apply (keeps_set_cached p _ (alloc ∅ w).2);
      [exact (proj1 K1)|done|by apply (alloc_unaliased ∅ None)].
Qed.

Lemma keeps_after c w : separated w → call_ok w c → keeps w (after H c w).
Proof.
  intros Hs Hok. destruct c; simpl.
  - by apply keeps_cacheMock.
  - by apply keeps_cacheMock_restore.
  - by apply keeps_cacheMock_require.
  - by apply keeps_alloc.
Qed.

Lemma keeps_reaches w1 w2 : separated w1 → reaches H w1 w2 → keeps w1 w2.
Proof.
  intros Hs Hreach. induction Hreach as [w|w1 w2 c _ IH Hok].
  - by apply keeps_refl.
  - specialize (IH Hs). eapply keeps_trans; [exact IH|].
    apply keeps_after; [exact (proj1 IH)|done].
Qed.

(** * Mocking several modules, restoring them all *)

Lemma restore_all_clears w :
  registered_loaded w → cache (restore_loop (reg_keys (cache w)) w) = [].
Proof.
  intros Hrl. apply reg_get_all_None. intros k. rewrite restore_loop_reg.
  destruct (reg_get k (cache w)) as [s|] eqn:Hk.
  - destruct (Hrl k s Hk) as [m ->].
    by rewrite decide_True by eauto using reg_get_Some_keys.
  - destruct (require_cache w !! k); [|done]. by case_decide.
Qed.

Lemma copies_apart_snapshotted p m w :
  copies_apart w → require_cache w !! p = Some m →
  copies_apart (snapshotted p m w).
Proof.
  intros (H1 & H2 & H3) Hm. unfold snapshotted.
  destruct (reg_get p (cache w)) as [s|] eqn:Hp; [done|].
  repeat split; simpl.
  - intros q n Hn. rewrite length_app. specialize (H1 q n Hn). lia.
  - intros q s. rewrite reg_get_add, length_app. simpl.
    destruct (reg_get q (cache w)) eqn:Hq.
    + intros [= <-]. apply H2 in Hq. lia.
    + case_decide; [|done]. intros [= <-]. lia.
  - intros q1 q2 s n. rewrite reg_get_add.
    destruct (reg_get q1 (cache w)) eqn:Hq1.
    + intros [= <-]. eauto.
    + case_decide; [|done]. intros [= <-] Hn Heq. apply H1 in Hn. lia.
Qed.

Lemma copies_apart_assigned e pre w :
  copies_apart w → copies_apart (assigned e pre w).
Proof.
  intros (H1 & H2 & H3). unfold copies_apart, assigned. simpl.
  rewrite length_alter. eauto.
Qed.

Lemma copies_apart_host_require p w :
  copies_apart w → copies_apart (host_require H p w).2.
Proof.
  intros (H1 & H2 & H3). unfold host_require.
  destruct (source_of H p) as [| |init a]; [done|done|].
  repeat split; simpl.
  - intros q n. rewrite length_app, lookup_insert. simpl.
    case_decide; [intros [= <-]; simpl; lia|].
    intros Hn. specialize (H1 q n Hn). lia.
  - intros q s Hq. rewrite length_app. specialize (H2 q s Hq). lia.
  - intros q1 q2 s n Hq1. rewrite lookup_insert.
    case_decide; [|by eauto]. intros [= <-]. simpl.
    specialize (H2 q1 s Hq1). lia.
Qed.

(** Lines 44 and 46, run in full or in part, for a module with record [m]:
    the entry of the path is there afterwards; it is the one it had, or a
    new copy of the exports; the other entries and what they hold are
    untouched. *)
Lemma mock_loaded_saves p m pre w :
  copies_apart w → require_cache w !! p = Some m →
  let w' := assigned (exports m) pre (snapshotted p m w) in
  copies_apart w' ∧
  require_cache w' = require_cache w ∧
  is_Some (reg_get p (cache w')) ∧
  (∀ q t E, reg_get q (cache w) = Some t → heap w !! t = Some E →
            reg_get q (cache w') = Some t ∧ heap w' !! t = Some E) ∧
  (∀ q t, reg_get q (cache w') = Some t →
          q = p ∨ reg_get q (cache w) = Some t) ∧
  (reg_get p (cache w) = None →
   ∃ s, reg_get p (cache w') = Some s ∧
        heap w' !! s = Some (props (heap w) (exports m))).
Proof.
  intros Hca Hm. cbv zeta.
  pose proof (copies_apart_snapshotted p m w Hca Hm) as Hca1.
  split; [by apply copies_apart_assigned|].
  split; [apply snapshotted_cached|].
  split; [apply snapshotted_has_entry|].
  destruct Hca as (H1 & H2 & H3). split; [|split].
  - intros q t E Hq Ht. split.
    + destruct (decide (p = q)) as [->|Hne].
      * by rewrite (snapshotted_kept q m w t Hq).
      * unfold assigned. cbn [cache]. by rewrite snapshotted_reg_other.
    + rewrite assigned_heap_other by (by eapply H3).
      by apply snapshotted_heap_old.
  - intros q t Hq. destruct (decide (p = q)) as [->|Hne]; [by left|].
    right. unfold assigned in Hq. cbn [cache] in Hq.
    by rewrite snapshotted_reg_other in Hq.
  - intros Hp. destruct (snapshotted_fresh p m w Hp) as [Hg Hh].
    exists (length (heap w)). split; [done|].
    rewrite assigned_heap_other; [done|].
    specialize (H1 p m Hm). lia.
Qed.

Lemma cacheMock_saves path ov w w' :
  copies_apart w →
  cacheMock H path ov w = (Return tt, w') →
  ∃ p, resolve H path = Some p ∧
       copies_apart w' ∧
       is_Some (require_cache w' !! p) ∧
       is_Some (reg_get p (cache w')) ∧
       (∀ q n, require_cache w !! q = Some n →
               require_cache w' !! q = Some n) ∧
       (∀ q t E, reg_get q (cache w) = Some t → heap w !! t = Some E →
                 reg_get q (cache w') = Some t ∧ heap w' !! t = Some E) ∧
       (∀ q t, reg_get q (cache w') = Some t →
               q = p ∨ reg_get q (cache w) = Some t) ∧
       (∀ E, live w p = Some E → reg_get p (cache w) = None →
             ∃ s, reg_get p (cache w') = Some s ∧ heap w' !! s = Some E).
Proof.
  intros Hca Hrun.
  destruct (cacheMock_state path ov w)
    as [(e & Hthrow & _)|[(p & _ & _ & Hthrow)|
        (p & m & w1 & pre & suf & _ & Hr & Hw1 & _ & Hst & _)]];
    [congruence|congruence|].
  rewrite Hrun in Hst. simpl in Hst. subst w'. exists p. split; [done|].
  destruct Hw1 as [[Hc ->]|(Hc & Hm & Hreq & init & a & Hsrc)].
  - destruct (mock_loaded_saves p m pre w Hca Hc)
      as (Hca' & Hrc & He & Hkeep & Hnew & Hsnap).
    split; [done|]. rewrite Hrc. split; [by eauto|]. split; [done|].
    split; [done|]. split; [done|]. split; [done|].
    intros E Hl Hp. unfold live in Hl. rewrite Hc in Hl. simpl in Hl.
    destruct (Hsnap Hp) as (s & Hg & Hh). exists s. split; [done|].
    rewrite Hh. unfold props. by rewrite Hl.
  - assert (Hca1 : copies_apart w1).
    { pose proof (copies_apart_host_require p w Hca) as Hh.
      by rewrite Hreq in Hh. }
    rewrite (host_require_exports p init a w Hsrc) in Hreq.
    injection Hreq as <-.
    destruct (mock_loaded_saves p m pre _ Hca1 Hm)
      as (Hca' & Hrc & He & Hkeep & Hnew & Hsnap).
    split; [done|]. rewrite Hrc. split; [by eauto|]. split; [done|].
    split; [|split; [|split]].
    + intros q n Hn. cbn [require_cache]. rewrite lookup_insert_ne; [done|].
      intros <-. congruence.
    + intros q t E Hq Ht. apply Hkeep; [done|]. cbn [heap].
      by apply lookup_app_l_Some.
    + intros q t Hq. by apply Hnew in Hq.
    + intros E Hl. unfold live in Hl. by rewrite Hc in Hl.
Qed.

Lemma reaches_trans w1 w2 w3 :
  reaches H w1 w2 → reaches H w2 w3 → reaches H w1 w3.
Proof.
  intros H12 H23. induction H23 as [w|wa wb c _ IH Hok]; [done|].
  apply reaches_call; [by apply IH|done].
Qed.

Lemma mock_all_reaches ms w0 : reaches H w0 (mock_all H ms w0).2.
Proof.
  revert w0. induction ms as [|[path ov] ms IH]; intros w0; [constructor|].
  simpl. unfold bind.
  pose proof (reaches_call H w0 w0 (CallMock path ov) (reaches_here H w0) I)
    as Hstep. simpl in Hstep.
  destruct (cacheMock H path ov w0) as [[[]|e] w1]; simpl in *; [|done].
  eapply reaches_trans; [exact Hstep|apply IH].
Qed.

Lemma mock_all_saves ms w0 w :
  copies_apart w0 → registered_loaded w0 →
  mock_all H ms w0 = (Return tt, w) →
  copies_apart w ∧ registered_loaded w ∧
  (∀ q n, require_cache w0 !! q = Some n → require_cache w !! q = Some n) ∧
  (∀ q t E, reg_get q (cache w0) = Some t → heap w0 !! t = Some E →
            reg_get q (cache w) = Some t ∧ heap w !! t = Some E) ∧
  ∀ path ov p E,
    (path, ov) ∈ ms → resolve H path = Some p →
    reg_get p (cache w0) = None →
    exports_at_first_mock H ms w0 p = Some E →
    ∃ s, reg_get p (cache w) = Some s ∧ heap w !! s = Some E.
Proof.
  revert w0. induction ms as [|[path ov] ms IH]; intros w0 Hca Hrl Hrun.
  - injection Hrun as <-. repeat (split; [done|]).
    intros ???? Hin. inversion Hin.
  - simpl in Hrun. unfold bind in Hrun.
    destruct (cacheMock H path ov w0) as [[[]|e] w1] eqn:Hmock; [|done].
    destruct (cacheMock_saves path ov w0 w1 Hca Hmock)
      as (p & Hr & Hca1 & Hc1 & [s Hs] & Hcached & Hkeep & Hnew & Hsnap).
    assert (Hrl1 : registered_loaded w1).
    { intros q t Hq. destruct (Hnew q t Hq) as [->|Hq0]; [done|].
      destruct (Hrl q t Hq0) as [n Hn]. exists n. by apply Hcached. }
    destruct (IH w1 Hca1 Hrl1 Hrun) as (Hca' & Hrl' & Hcached' & Hkeep' & Hin).
    split; [done|]. split; [done|]. split; [by eauto|]. split.
    { intros q t E Hq Ht. destruct (Hkeep q t E Hq Ht). by apply Hkeep'. }
    intros path' ov' p' E Hel Hr' Hg' Hfirst. simpl in Hfirst.
    rewrite Hmock in Hfirst. simpl in Hfirst.
    destruct (decide (resolve H path = Some p')) as [Heq|Hne].
    + assert (p' = p) as -> by congruence.
      destruct (Hsnap E Hfirst Hg') as (s' & Hs' & Hh').
      exists s'. by apply Hkeep'.
    + apply elem_of_cons in Hel as [[= -> ->]|Hel]; [congruence|].
      apply (Hin path' ov' p' E Hel Hr'); [|done].
      destruct (reg_get p' (cache w1)) as [t|] eqn:Ht; [|done].
      destruct (Hnew p' t Ht) as [->|?]; congruence.
Qed.

Lemma exports_at_first_mock_is_Some ms w0 w path ov p :
  copies_apart w0 →
  mock_all H ms w0 = (Return tt, w) →
  (path, ov) ∈ ms → resolve H path = Some p →
  is_Some (require_cache w0 !! p) →
  is_Some (exports_at_first_mock H ms w0 p).
Proof.
  revert w0. induction ms as [|[path0 ov0] ms IH];
    intros w0 Hca Hrun Hel Hr [n Hn]; [inversion Hel|].
  simpl in *. unfold bind in Hrun.
  destruct (cacheMock H path0 ov0 w0) as [[[]|e] w1] eqn:Hmock; [|done].
  simpl. case_decide as Hd.
  - unfold live. rewrite Hn. simpl. apply lookup_lt_is_Some.
    by eapply (proj1 Hca).
  - destruct (cacheMock_saves path0 ov0 w0 w1 Hca Hmock)
      as (p0 & _ & Hca1 & _ & _ & Hcached & _).
    apply elem_of_cons in Hel as [[= -> ->]|Hel]; [congruence|].
    apply (IH w1); eauto.
Qed.

(** C4 (bulk restore): take a state in which every reference points to an
    object, no saved copy is the exports object of a module and every
    registry path has a module record (with an empty registry: a state in
    which every module record points to an object), and mock any number of
    loaded, not yet mocked modules, each call returning.  A single
    [restore()] then returns normally, leaves the registry empty and changes
    no object, and every mocked module has as its [exports] the saved copy
    the registry held for it, whose properties are the ones the module
    exported when it was first mocked.  If moreover no two modules shared an
    exports object, every module that was loaded and not mocked at the
    start, mocked since or not, exports what it exported at the start. *)
Theorem bulk_restore_clears_all ms w0 w :
  copies_apart w0 →
  registered_loaded w0 →
  (∀ path mockExports, (path, mockExports) ∈ ms →
     ∃ p, resolve H path = Some p ∧ is_Some (require_cache w0 !! p) ∧
          reg_get p (cache w0) = None) →
  mock_all H ms w0 = (Return tt, w) →
  ∃ w',
    cacheMock_restore H None w = (Return tt, w') ∧
    cache w' = [] ∧
    heap w' = heap w ∧
    (∀ path mockExports, (path, mockExports) ∈ ms →
       ∃ p s m' E,
         resolve H path = Some p ∧
         reg_get p (cache w) = Some s ∧
         require_cache w' !! p = Some m' ∧
         exports m' = s ∧
         exports_at_first_mock H ms w0 p = Some E ∧
         live w' p = Some E) ∧
    (separated w0 →
     ∀ q, is_Some (require_cache w0 !! q) → reg_get q (cache w0) = None →
          is_Some (live w0 q) ∧ live w' q = live w0 q).
Proof.
  intros Hca Hrl0 Hms Hrun.
  destruct (mock_all_saves ms w0 w Hca Hrl0 Hrun)
    as (Hca' & Hrl & Hcached & _ & Hin).
  exists (restore_loop (reg_keys (cache w)) w).
  split; [apply restore_all_run|].
  pose proof (restore_all_clears w Hrl) as Hclear.
  split; [done|]. split; [apply restore_loop_heap|]. split.
  - intros path ov Hel. destruct (Hms path ov Hel) as (p & Hr & Hc0 & Hg0).
    destruct (exports_at_first_mock_is_Some ms w0 w path ov p Hca Hrun Hel
                Hr Hc0) as [E HE].
    destruct (Hin path ov p E Hel Hr Hg0 HE) as (s & Hs & Hh).
    destruct (Hrl p s Hs) as [m Hc].
    assert (Hc' : require_cache (restore_loop (reg_keys (cache w)) w) !! p
                  = Some (set_exports m s)).
    { rewrite restore_loop_cached, Hc, Hs.
      by rewrite decide_True by eauto using reg_get_Some_keys. }
    exists p, s, (set_exports m s), E. repeat (split; [done|]).
    unfold live. rewrite Hc'. simpl. by rewrite restore_loop_heap.
  - intros Hsep q [n Hn] Hg0.
    assert (K1 : keeps w0 w).
    { apply keeps_reaches; [done|].
      pose proof (mock_all_reaches ms w0) as Hreach.
      by rewrite Hrun in Hreach. }
    pose proof (keeps_restore_loop (reg_keys (cache w)) w (proj1 K1)) as K2.
    destruct (keeps_trans _ _ _ K1 K2) as [_ Hkeep].
    destruct (Hkeep q) as [_ Hpre]; [by eauto|].
    unfold pre_mock_state in Hpre. rewrite Hclear, Hg0 in Hpre. simpl in Hpre.
    split; [|done]. unfold live. rewrite Hn. simpl.
    apply lookup_lt_is_Some. by eapply sep_exports_valid.
Qed.

(** * Registry entries and the pre-mock state *)

(** C5, as the code has it.  Take a state with unshared objects in which the
    module at [p] has no registry entry and live exports [E]: its pre-mock
    state.  In every state reached from there by [cacheMock], [restore] and
    [cacheMock.require] calls (the latter given no object or one not in
    use), the saved copy or, without an entry, the live exports are still
    [E]; so with no entry the live exports equal [E], and whenever they
    differ from [E] there is an entry. *)
Theorem entry_when_exports_differ w1 w2 p E :
  separated w1 →
  reaches H w1 w2 →
  live w1 p = Some E →
  reg_get p (cache w1) = None →
  pre_mock_state w2 p = Some E ∧
  (reg_get p (cache w2) = None → live w2 p = Some E) ∧
  (∀ E', live w2 p = Some E' → E' ≠ E → is_Some (reg_get p (cache w2))).
Proof.
  intros Hs Hreach Hl Hp.
  destruct (keeps_reaches w1 w2 Hs Hreach) as [_ Hkeep].
  assert (Hc : is_Some (require_cache w1 !! p)).
  { unfold live in Hl. destruct (require_cache w1 !! p); [eauto|done]. }
  destruct (Hkeep p Hc) as [_ Hpre].
  assert (Hpre1 : pre_mock_state w1 p = Some E).
  { unfold pre_mock_state. by rewrite Hp. }
  rewrite Hpre1 in Hpre. split; [done|].
  unfold pre_mock_state in Hpre. split.
  - intros Hnone. by rewrite Hnone in Hpre.
  - intros E' Hl' Hne. destruct (reg_get p (cache w2)); [eauto|].
    congruence.
Qed.

End calls.
(** * The modules of the test suite *)



(** Nor does it hold for an own key [__proto__] of the mapping: the call
    returns, and the exports have no such key. *)
Example proto_key_not_merged :
  let mockExports := [("__proto__", VNum 1)] in
  let r := cacheMock test_host "./tmpModule.js" mockExports tmp_loaded in
  r.1 = Return tt ∧
  mapping_get "__proto__" mockExports = Some (VNum 1) ∧
  live r.2 "/test/tmpModule.js" = Some tmpModule.
Proof. repeat split; vm_compute; reflexivity. Qed.

(** Nor for a frozen exports object: the first assignment throws, after the
    registry entry has been made. *)
Example frozen_exports_not_merged :
  let r := cacheMock test_host "./tmpModule.js" [("a", VStr "mockedA")]
             tmp_frozen in
  r.1 = Throw TypeError ∧
  live r.2 "/test/tmpModule.js" = Some tmpModule ∧
  reg_get "/test/tmpModule.js" (cache r.2) = Some 1.
Proof. repeat split; vm_compute; reflexivity. Qed.

(** The assignments made before the one that throws stay: with [b] alone
    read-only, [a] is mocked and [c] is not. *)
Example partial_merge_stays :
  let w := {| require_cache := require_cache tmp_loaded;
              heap := [tmpModule];
              attrs := {[ 0 := {| readonly := {[ "b" ]}; hidden := ∅;
                                  extensible := true |} ]};
              cache := []; effects := effects tmp_loaded |} in
  let r := cacheMock test_host "./tmpModule.js"
             [("a", VStr "mockedA"); ("b", VStr "mockedB");
              ("c", VStr "mockedC")] w in
  r.1 = Throw TypeError ∧
  (live r.2 "/test/tmpModule.js" ≫= lookup "a") = Some (VStr "mockedA") ∧
  (live r.2 "/test/tmpModule.js" ≫= lookup "b") = Some (VStr "originalB") ∧
  (live r.2 "/test/tmpModule.js" ≫= lookup "c") = None.
Proof. repeat split; vm_compute; reflexivity. Qed.


Lemma first_mock_wins_witness :
  let w1 := (cacheMock test_host "./tmpModule.js" [("a", VStr "mockA1")]
               tmp_loaded).2 in
  let w2 := run_calls test_host
              [CallMock "./tmpModule.js" [("b", VStr "mockB1")]] w1 in
  let r3 := cacheMock_restore test_host (Some "./tmpModule.js") w2 in
  r3.1 = Return tt ∧
  live r3.2 "/test/tmpModule.js" = Some tmpModule ∧
  reg_get "/test/tmpModule.js" (cache w1) = Some 1 ∧
  reg_get "/test/tmpModule.js" (cache w2) = Some 1 ∧
  heap w2 !! 1 = Some tmpModule.
Proof.
  destruct (first_mock_wins test_host "./tmpModule.js"
              [("a", VStr "mockA1")] [ [("b", VStr "mockB1")] ]
              "/test/tmpModule.js" tmpModule tmp_loaded
              eq_refl eq_refl eq_refl) as (Hret & Hlive & Hsaved & _).
  split; [exact Hret|]. split; [exact Hlive|].
  destruct (Hsaved 1) as (_ & Hg & Hh); [vm_compute; reflexivity|].
  split; [vm_compute; reflexivity|]. split; [exact Hg|exact Hh].
Defined.

Lemma restore_falsy_is_restore_all_witness :
  cacheMock_restore test_host (Some "") tmp_mocked
    = cacheMock_restore test_host None tmp_mocked ∧
  (cacheMock_restore test_host (Some "") tmp_mocked).1 = Return tt ∧
  resolve test_host "" = None.
Proof.
  destruct (restore_falsy_is_restore_all test_host test_host "" tmp_mocked
              eq_refl) as (Heq & Hrun & _).
  split; [exact Heq|]. split; [|reflexivity].
  exact (f_equal fst Hrun).
Defined.


(** It fails for [cacheMock] too: with a mapping that [JSON.stringify]
    rejects and a path that does not resolve, the error is the [TypeError]
    of the first line. *)
Example mock_unresolved_type_error :
  resolve test_host "./missing.js" = None ∧
  (cacheMock test_host "./missing.js" [("o", VRef 1)] cycle_made).1
    = Throw TypeError.
Proof. split; vm_compute; reflexivity. Qed.

Lemma restore_swaps_reference_witness :
  ∃ w' m',
    cacheMock_restore test_host (Some "./tmpModule.js") tmp_mocked
      = (Return tt, w') ∧
    require_cache w' !! "/test/tmpModule.js" = Some m' ∧
    exports m' = 1 ∧
    reg_get "/test/tmpModule.js" (cache w') = None ∧
    heap w' = heap tmp_mocked ∧
    props (heap w') 0 = props (heap tmp_mocked) 0.
Proof.
  apply (restore_swaps_reference test_host "./tmpModule.js"
           "/test/tmpModule.js"
           {| mod_id := "/test/tmpModule.js";
              filename := Some "/test/tmpModule.js"; loaded := true;
              exports := 0; parent := Some "/test/cacheMock.test.js" |}
           1 tmp_mocked); reflexivity.
Defined.

Lemma preload_contract_witness :
  ∃ r w',
    cacheMock_require test_host "/test/tmpPreloadModule.js" (Some 0)
      stub_made = (Return r, w') ∧
    effects w' = [] ∧
    (∃ m, require_cache w' !! "/test/tmpPreloadModule.js" = Some m ∧
          loaded m = true ∧ exports m = 0) ∧
    heap w' = heap stub_made.
Proof.
  destruct (preload_contract test_host "/test/tmpPreloadModule.js" (Some 0)
              "/test/tmpPreloadModule.js" stub_made eq_refl)
    as (r & w' & Hrun & He & _ & _ & Hc).
  exists r, w'. split; [exact Hrun|]. split; [exact He|].
  change (require_cache stub_made !! "/test/tmpPreloadModule.js")
    with (@None NodeModule) in Hc.
  destruct Hc as (m & Hc & Hl & _ & _ & Hx & Hh). split; [|exact Hh].
  exists m. rewrite Hc, lookup_insert_eq. done.
Defined.

(** The call of the test suite inserts a record and returns [undefined]. *)
Example preload_stub_returns_undefined :
  let r := cacheMock_require test_host "/test/tmpPreloadModule.js" (Some 0)
             stub_made in
  r.1 = Return RUndefined ∧
  is_Some (require_cache r.2 !! "/test/tmpPreloadModule.js").
Proof. split; [reflexivity|]. vm_compute. eauto. Qed.

Lemma copies_apart_both_loaded : copies_apart both_loaded.
Proof.
  split; [|split]; simpl.
  - intros p m [[_ <-]|[_ [_ <-]%lookup_singleton_Some]]%lookup_insert_Some;
      simpl; lia.
  - intros p s Hp. discriminate Hp.
  - intros p q s m Hp. discriminate Hp.
Qed.

Lemma bulk_restore_clears_all_witness :
  ∃ w',
    cacheMock_restore test_host None both_mocked = (Return tt, w') ∧
    cache w' = [] ∧
    heap w' = heap both_mocked ∧
    live w' "/test/tmpModule.js" = Some tmpModule ∧
    live w' "/test/tmpModule2.js" = Some tmpModule2.
Proof.
  destruct (bulk_restore_clears_all test_host two_mocks both_loaded
              both_mocked copies_apart_both_loaded)
    as (w' & Hrun & Hempty & Hheap & Hall & _).
  - intros p s Hp. discriminate Hp.
  - intros path ov [[= -> ->]|[[= -> ->]|Hel]%elem_of_cons]%elem_of_cons.
    + exists "/test/tmpModule.js". repeat split. vm_compute. eauto.
    + exists "/test/tmpModule2.js". repeat split. vm_compute. eauto.
    + inversion Hel.
  - vm_compute. reflexivity.
  - exists w'. split; [exact Hrun|]. split; [exact Hempty|].
    split; [exact Hheap|]. split.
    + destruct (Hall "/test/tmpModule.js" [("a", VStr "mockA")])
        as (p & s & m' & E & Hr & _ & _ & _ & HE & Hl); [left|].
      injection Hr as <-. rewrite Hl, <- HE. vm_compute. reflexivity.
    + destruct (Hall "/test/tmpModule2.js" [("x", VStr "mockX")])
        as (p & s & m' & E & Hr & _ & _ & _ & HE & Hl); [right; left|].
      injection Hr as <-. rewrite Hl, <- HE. vm_compute. reflexivity.
Defined.

Lemma separated_tmp_loaded : separated tmp_loaded.
Proof.
  split; simpl.
  - intros p m [_ <-]%lookup_singleton_Some. simpl. lia.
  - intros p s Hp. discriminate Hp.
  - intros p q m n [<- _]%lookup_singleton_Some
      [<- _]%lookup_singleton_Some _. done.
  - intros p q s m Hp. discriminate Hp.
  - intros p q s t Hp. discriminate Hp.
Qed.

Lemma entry_when_exports_differ_witness :
  pre_mock_state tmp_mocked "/test/tmpModule.js" = Some tmpModule ∧
  is_Some (reg_get "/test/tmpModule.js" (cache tmp_mocked)).
Proof.
  destruct (entry_when_exports_differ test_host tmp_loaded tmp_mocked
              "/test/tmpModule.js" tmpModule separated_tmp_loaded)
    as (Hpre & _ & Hdiff).
  - exact (reaches_call test_host tmp_loaded tmp_loaded
             (CallMock "./tmpModule.js" [("a", VStr "mockedA")])
             (reaches_here test_host tmp_loaded) I).
  - reflexivity.
  - reflexivity.
  - split; [exact Hpre|].
    apply (Hdiff (<["a" := VStr "mockedA"]> tmpModule)); [reflexivity|].
    intros Heq. apply (f_equal (λ o : obj, o !! "a")) in Heq.
    vm_compute in Heq. discriminate Heq.
Defined.

(** C5 as stated fails from right to left: after a mock with an empty
    replacement mapping the module has an entry, and its live exports are
    what they were before. *)
Lemma entry_without_difference :
  let w := (cacheMock test_host "./tmpModule.js" [] tmp_loaded).2 in
  ¬ (is_Some (reg_get "/test/tmpModule.js" (cache w))
     ↔ live w "/test/tmpModule.js" ≠ live tmp_loaded "/test/tmpModule.js").
Proof.
  intros w [Hdiffers _]. apply Hdiffers; [|reflexivity].
  exists 1. reflexivity.
Qed.

(** Why the separation is asked for: a stub made around the exports object
    of [tmpModule.js] changes when that module is mocked, and has no entry
    of its own. *)
Lemma shared_exports_change_together :
  let w1 := after test_host
              (CallRequire "/test/tmpPreloadModule.js" (Some 0)) tmp_loaded in
  let w2 := after test_host
              (CallMock "./tmpModule.js" [("a", VStr "mockedA")]) w1 in
  reg_get "/test/tmpPreloadModule.js" (cache w1) = None ∧
  reg_get "/test/tmpPreloadModule.js" (cache w2) = None ∧
  live w1 "/test/tmpPreloadModule.js" = Some tmpModule ∧
  live w2 "/test/tmpPreloadModule.js"
    = Some (<["a" := VStr "mockedA"]> tmpModule) ∧
  ¬ unaliased tmp_loaded 0.
Proof.
  repeat split; try (vm_compute; reflexivity).
  intros (_ & Hlive & _).
  by apply (Hlive "/test/tmpModule.js"
              {| mod_id := "/test/tmpModule.js";
                 filename := Some "/test/tmpModule.js"; loaded := true;
                 exports := 0; parent := Some "/test/cacheMock.test.js" |}).
Qed.

(** * The test suite, replayed *)

(** "should apply a mock to a module and restore" *)
Example test_mock_and_restore :
  let mocked := after test_host
                  (CallMock "./tmpModule.js" [("a", VStr "mockedA")])
                  tmp_loaded in
  let restored := after test_host (CallRestore (Some "./tmpModule.js"))
                    mocked in
  (live mocked "/test/tmpModule.js" ≫= lookup "a") = Some (VStr "mockedA") ∧
  (live mocked "/test/tmpModule.js" ≫= lookup "b") = Some (VStr "originalB") ∧
  (live restored "/test/tmpModule.js" ≫= lookup "a")
    = Some (VStr "originalA") ∧
  (live restored "/test/tmpModule.js" ≫= lookup "b")
    = Some (VStr "originalB").
Proof. repeat split; vm_compute; reflexivity. Qed.

(** "should handle mocking the same module multiple times" *)
Example test_mock_twice :
  let mocked :=
    after test_host (CallMock "./tmpModule.js" [("b", VStr "mockB1")])
      (after test_host (CallMock "./tmpModule.js" [("a", VStr "mockA1")])
         tmp_loaded) in
  let restored := after test_host (CallRestore None) mocked in
  (live mocked "/test/tmpModule.js" ≫= lookup "a") = Some (VStr "mockA1") ∧
  (live mocked "/test/tmpModule.js" ≫= lookup "b") = Some (VStr "mockB1") ∧
  cache restored = [] ∧
  live restored "/test/tmpModule.js" = Some tmpModule.
Proof. repeat split; vm_compute; reflexivity. Qed.

(** "should handle multiple mocks and restore all" *)
Example test_restore_all :
  let restored := after test_host (CallRestore None) both_mocked in
  length (reg_keys (cache both_mocked)) = 2 ∧
  (live both_mocked "/test/tmpModule.js" ≫= lookup "a")
    = Some (VStr "mockA") ∧
  (live both_mocked "/test/tmpModule2.js" ≫= lookup "x")
    = Some (VStr "mockX") ∧
  cache restored = [] ∧
  live restored "/test/tmpModule.js" = Some tmpModule ∧
  live restored "/test/tmpModule2.js" = Some tmpModule2.
Proof. repeat split; vm_compute; reflexivity. Qed.

(** "should preload a module into cache without running its init code" *)
Example test_preload_runs_no_code :
  let stubbed := after test_host
                   (CallRequire "/test/tmpPreloadModule.js" None)
                   fresh_process in
  let mocked := after test_host
                  (CallMock "/test/tmpPreloadModule.js"
                     [("value", VNum 999)]) stubbed in
  effects stubbed = [] ∧
  effects mocked = [] ∧
  (live mocked "/test/tmpPreloadModule.js" ≫= lookup "value")
    = Some (VNum 999).
Proof. repeat split; vm_compute; reflexivity. Qed.

(** "should preload a module with custom exports" *)
Example test_preload_custom_exports :
  live (after test_host (CallRequire "/test/tmpPreloadModule.js" (Some 0))
          stub_made) "/test/tmpPreloadModule.js"
    = Some {[ "value" := VNum 999; "extra" := VStr "mocked" ]}.
Proof. vm_compute. reflexivity. Qed.

Section more.
Context (H : host).

(** ** [restore] when there is nothing to restore *)

Lemma restored_noop p w :
  require_cache w !! p = None ∨ reg_get p (cache w) = None →
  restored p w = w.
Proof.
  unfold restored. intros [->| ->]; [done|].
  by destruct (require_cache w !! p).
Qed.

Lemma restore_loop_noop ks w :
  (∀ k, k ∈ ks →
        require_cache w !! k = None ∨ reg_get k (cache w) = None) →
  restore_loop ks w = w.
Proof.
  unfold restore_loop. induction ks as [|k ks IH]; intros Hks; simpl; [done|].
  rewrite restored_noop by (apply Hks; left).
  apply IH. intros k' Hk'. apply Hks. by right.
Qed.

(** X1: [restore(path)] for a non-empty path that has no saved copy, or no
    module record, returns normally and changes nothing. *)
Theorem restore_missing_is_noop path p w :
  truthy path = true →
  resolve H path = Some p →
  require_cache w !! p = None ∨ reg_get p (cache w) = None →
  cacheMock_restore H (Some path) w = (Return tt, w).
Proof.
  intros Ht Hr Hmiss. rewrite (restore_truthy_run H path p w Ht Hr).
  by rewrite restored_noop.
Qed.

(** X2: with an empty registry [restore] changes nothing, whatever its
    argument, and [restore()] returns normally. *)
Theorem restore_empty_registry_noop path w :
  cache w = [] →
  (cacheMock_restore H path w).2 = w ∧
  cacheMock_restore H None w = (Return tt, w).
Proof.
  intros He.
  assert (Hall : cacheMock_restore H None w = (Return tt, w)).
  { rewrite restore_all_run, He. done. }
  split; [|done]. destruct path as [path|]; [|by rewrite Hall].
  destruct (truthy path) eqn:Ht.
  - destruct (resolve H path) as [p|] eqn:Hr.
    + rewrite (restore_truthy_run H path p w Ht Hr). simpl.
      apply restored_noop. right. by rewrite He.
    + by rewrite restore_unresolved.
  - by rewrite restore_falsy_run, Hall.
Qed.

Lemma restore_loop_settled ks w k :
  reg_keys (cache w) ⊆ ks →
  require_cache (restore_loop ks w) !! k = None ∨
  reg_get k (cache (restore_loop ks w)) = None.
Proof.
  intros Hsub. rewrite restore_loop_cached, restore_loop_reg.
  destruct (require_cache w !! k) as [m|] eqn:Hc; [|by left]. right.
  destruct (reg_get k (cache w)) as [s|] eqn:Hg; [|by case_decide].
  rewrite decide_True; [done|]. eapply Hsub, reg_get_Some_keys, Hg.
Qed.

Lemma restored_settled p w :
  require_cache (restored p w) !! p = None ∨
  reg_get p (cache (restored p w)) = None.
Proof.
  rewrite restored_cached, restored_reg.
  destruct (require_cache w !! p); [right; by rewrite decide_True|by left].
Qed.

(** X3: [restore] is idempotent: a second call with the same argument has
    the same outcome as the first and changes nothing. *)
Theorem restore_idempotent path w :
  cacheMock_restore H path (cacheMock_restore H path w).2 =
    ((cacheMock_restore H path w).1, (cacheMock_restore H path w).2).
Proof.
  assert (Hall : ∀ w0,
    cacheMock_restore H None (cacheMock_restore H None w0).2 =
      ((cacheMock_restore H None w0).1, (cacheMock_restore H None w0).2)).
  { intros w0. rewrite !restore_all_run. simpl. f_equal.
    apply restore_loop_noop. intros k _. by apply restore_loop_settled. }
  destruct path as [path|]; [|apply Hall].
  destruct (truthy path) eqn:Ht.
  - destruct (resolve H path) as [p|] eqn:Hr.
    + rewrite !(restore_truthy_run H path p _ Ht Hr). simpl. f_equal.
      apply restored_noop, restored_settled.
    + by rewrite !restore_unresolved.
  - rewrite !(restore_falsy_run H path _ Ht). apply Hall.
Qed.

(** X4: [restore(path)] for a non-empty path touches that path only: every
    other module record and registry entry stays, no object changes and no
    module code runs. *)
Theorem restore_one_frame path p w :
  truthy path = true →
  resolve H path = Some p →
  ∃ w',
    cacheMock_restore H (Some path) w = (Return tt, w') ∧
    heap w' = heap w ∧
    effects w' = effects w ∧
    ∀ q, q ≠ p →
         require_cache w' !! q = require_cache w !! q ∧
         reg_get q (cache w') = reg_get q (cache w).
Proof.
  intros Ht Hr. exists (restored p w).
  split; [by apply restore_truthy_run|].
  split; [apply restored_heap|]. split; [apply restored_effects|].
  intros q Hq. rewrite restored_cached, restored_reg.
  destruct (decide (p = q)); [congruence|].
  by destruct (require_cache w !! q), (reg_get q (cache w)).
Qed.

(** ** The order of the loop of [restore] *)

Lemma reg_delete_comm p q (r : registry) :
  reg_delete p (reg_delete q r) = reg_delete q (reg_delete p r).
Proof.
  unfold reg_delete. induction r as [|[k v] r IH]; [done|].
  rewrite !filter_cons. simpl.
  repeat case_decide; rewrite ?filter_cons; simpl;
    repeat case_decide; try done; by f_equal.
Qed.

Lemma restored_comm p q w :
  restored p (restored q w) = restored q (restored p w).
Proof.
  destruct (decide (p = q)) as [->|Hne]; [done|].
  unfold restored.
  destruct (require_cache w !! p) as [mp|] eqn:Hp,
    (reg_get p (cache w)) as [sp|] eqn:Hsp,
    (require_cache w !! q) as [mq|] eqn:Hq,
    (reg_get q (cache w)) as [sq|] eqn:Hsq; simpl;
    rewrite ?lookup_insert_ne, ?reg_get_delete, ?decide_False by done;
    rewrite ?Hp, ?Hsp, ?Hq, ?Hsq; simpl; try done.
  f_equal; [by apply insert_insert_ne|apply reg_delete_comm].
Qed.

(** X5: the loop of [restore] gives the same result in whatever order the
    entries are visited. *)
Theorem restore_order_irrelevant ks ks' w :
  ks ≡ₚ ks' →
  for_of ks restore_entry w = for_of ks' restore_entry w.
Proof.
  intros Hperm. rewrite !for_of_restore_run. f_equal.
  unfold restore_loop. revert w.
  induction Hperm as [|k ks ks' _ IH|k1 k2 ks|ks1 ks2 ks3 _ IH1 _ IH2];
    intros w; simpl.
  - done.
  - apply IH.
  - by rewrite restored_comm.
  - by rewrite IH1, IH2.
Qed.

(** ** Mocking a loaded module *)

(** X6: a module mocked under one spelling of its path is restored under
    any other spelling that resolves to the same path, whether the call of
    [cacheMock] returned or threw: [restore] returns, the live exports are
    the ones from before the mock, and the entry is gone. *)
Theorem round_trip_any_spelling path1 path2 mockExports p E0 w :
  resolve H path1 = Some p →
  resolve H path2 = Some p →
  live w p = Some E0 →
  reg_get p (cache w) = None →
  let w1 := (cacheMock H path1 mockExports w).2 in
  let r2 := cacheMock_restore H (Some path2) w1 in
  r2.1 = Return tt ∧
  live r2.2 p = Some E0 ∧
  reg_get p (cache r2.2) = None.
Proof.
  intros Hr1 Hr2 Hl Hg. cbv zeta. unfold live in Hl.
  destruct (require_cache w !! p) as [m|] eqn:Hc; [|done]. simpl in Hl.
  assert (Hinv : holds_original p m E0 w).
  { split; [done|]. split; [by eauto|]. by rewrite Hg. }
  destruct (holds_original_mock H path1 mockExports p m E0 w Hr1 Hinv)
    as [Hinv1 _].
  by apply (holds_original_restore H path2 p m).
Qed.



Lemma assign_props_app l source1 source2 w w1 :
  assign_props l source1 w = (Return tt, w1) →
  assign_props l (source1 ++ source2) w = assign_props l source2 w1.
Proof.
  revert w. induction source1 as [|[k v] source1 IH]; intros w; simpl.
  - by intros [= <-].
  - unfold bind. destruct (set_property l k v w) as [[[]|e] w0]; [|done].
    apply IH.
Qed.

(** X8: two mocks of a loaded module, the first of which returns, are one
    mock with the entries of the second mapping after those of the first,
    as long as [JSON.stringify] lets the mappings through. *)
Theorem mock_twice_is_one_mock path ov1 ov2 p m w w1 :
  resolve H path = Some p →
  require_cache w !! p = Some m →
  cacheMock H path ov1 w = (Return tt, w1) →
  json_stringify_ok H (heap w1) ov2 = true →
  json_stringify_ok H (heap w) (ov1 ++ ov2) = true →
  cacheMock H path ov2 w1 = cacheMock H path (ov1 ++ ov2) w.
Proof.
  intros Hr Hc Hrun Hj2 Hj12.
  destruct (json_stringify_ok H (heap w) ov1) eqn:Hj1;
    [|by rewrite cacheMock_unprintable in Hrun].
  rewrite (cacheMock_cached_run H path ov1 p m w Hj1 Hr Hc) in Hrun.
  rewrite (cacheMock_cached_run H path _ p m w Hj12 Hr Hc).
  destruct (object_assign_run (exports m) ov1 (snapshotted p m w))
    as (pre & suf & _ & Hst & _).
  rewrite Hrun in Hst. simpl in Hst.
  assert (Hc1 : require_cache w1 !! p = Some m).
  { rewrite Hst. simpl. by rewrite snapshotted_cached. }
  destruct (snapshotted_has_entry p m w) as [s Hs].
  assert (Hg1 : reg_get p (cache w1) = Some s) by by rewrite Hst.
  rewrite (cacheMock_cached_run H path ov2 p m w1 Hj2 Hr Hc1).
  rewrite (snapshotted_kept p m w1 s Hg1).
  unfold object_assign in *.
  destruct (heap (snapshotted p m w) !! exports m) as [o|] eqn:Ho; [|done].
  rewrite (assign_props_app _ _ _ _ _ Hrun).
  assert (Ho1 : is_Some (heap w1 !! exports m)).
  { rewrite Hst. erewrite assigned_heap_target by done. eauto. }
  by destruct Ho1 as [o1 ->].
Qed.

(** X9: mocking a loaded module, whether the call returns or throws, runs
    no module code, leaves [require.cache] and the entries of other paths as
    they are, and changes no object other than the live exports of that
    module. *)
Theorem mock_loaded_frame path mockExports p m w :
  resolve H path = Some p →
  require_cache w !! p = Some m →
  let w' := (cacheMock H path mockExports w).2 in
  require_cache w' = require_cache w ∧
  effects w' = effects w ∧
  (∀ q, q ≠ p → reg_get q (cache w') = reg_get q (cache w)) ∧
  (∀ l o, l ≠ exports m → heap w !! l = Some o → heap w' !! l = Some o).
Proof.
  intros Hr Hc. cbv zeta.
  destruct (json_stringify_ok H (heap w) mockExports) eqn:Hj;
    [|by rewrite cacheMock_unprintable].
  rewrite (cacheMock_cached_run H path mockExports p m w Hj Hr Hc).
  destruct (object_assign_run (exports m) mockExports (snapshotted p m w))
    as (pre & suf & _ & -> & _).
  split; [apply snapshotted_cached|]. split; [apply snapshotted_effects|].
  split.
  - intros q Hq. by apply snapshotted_reg_other.
  - intros l o Hl Ho. rewrite assigned_heap_other by done.
    by apply snapshotted_heap_old.
Qed.


(** ** Mocking a module that is not loaded *)

Lemma restore_heap path w : heap (cacheMock_restore H path w).2 = heap w.
Proof.
  destruct path as [path|]; [destruct (truthy path) eqn:Ht|].
  - destruct (resolve H path) as [p|] eqn:Hr.
    + rewrite (restore_truthy_run H path p w Ht Hr). apply restored_heap.
    + by rewrite restore_unresolved.
  - rewrite restore_falsy_run, restore_all_run by done.
    apply restore_loop_heap.
  - rewrite restore_all_run. apply restore_loop_heap.
Qed.

Lemma restore_effects path w :
  effects (cacheMock_restore H path w).2 = effects w.
Proof.
  destruct path as [path|]; [destruct (truthy path) eqn:Ht|].
  - destruct (resolve H path) as [p|] eqn:Hr.
    + rewrite (restore_truthy_run H path p w Ht Hr). apply restored_effects.
    + by rewrite restore_unresolved.
  - rewrite restore_falsy_run, restore_all_run by done.
    apply restore_loop_effects.
  - rewrite restore_all_run. apply restore_loop_effects.
Qed.


(** ** When [cacheMock] throws *)

(** X11: a module that [require] does not put into [require.cache], such as a
    built-in, cannot be mocked: [cacheMock] throws a [TypeError] and leaves
    the state as it was. *)
Theorem mock_builtin_type_error path mockExports p w :
  resolve H path = Some p →
  require_cache w !! p = None →
  source_of H p = SrcBuiltin →
  cacheMock H path mockExports w = (Throw TypeError, w).
Proof.
  intros Hr Hc Hsrc.
  destruct (json_stringify_ok H (heap w) mockExports) eqn:Hj;
    [|by apply cacheMock_unprintable].
  rewrite (cacheMock_uncached_run H path _ p w Hj Hr Hc).
  unfold host_require. rewrite Hsrc. simpl. by rewrite Hc.
Qed.


(** ** Preloading, then mocking *)


(** ** What no call does *)

Lemma restore_entries path w q s :
  reg_get q (cache (cacheMock_restore H path w).2) = Some s →
  reg_get q (cache w) = Some s.
Proof.
  assert (Hloop : ∀ ks,
    reg_get q (cache (restore_loop ks w)) = Some s →
    reg_get q (cache w) = Some s).
  { intros ks. rewrite restore_loop_reg.
    destruct (require_cache w !! q); [by case_decide|done]. }
  destruct path as [path|]; [destruct (truthy path) eqn:Ht|].
  - destruct (resolve H path) as [p|] eqn:Hr.
    + rewrite (restore_truthy_run H path p w Ht Hr). apply (Hloop [p]).
    + by rewrite restore_unresolved.
  - rewrite restore_falsy_run, restore_all_run by done. apply Hloop.
  - rewrite restore_all_run. apply Hloop.
Qed.

Lemma restore_records path w q m :
  require_cache w !! q = Some m →
  ∃ m', require_cache (cacheMock_restore H path w).2 !! q = Some m' ∧
        same_module m m'.
Proof.
  intros Hq.
  assert (Hloop : ∀ ks,
    ∃ m', require_cache (restore_loop ks w) !! q = Some m' ∧
          same_module m m').
  { intros ks. rewrite restore_loop_cached, Hq.
    destruct (reg_get q (cache w)) as [s|]; [case_decide|];
      eexists; by split. }
  destruct path as [path|]; [destruct (truthy path) eqn:Ht|].
  - destruct (resolve H path) as [p|] eqn:Hr.
    + rewrite (restore_truthy_run H path p w Ht Hr). apply (Hloop [p]).
    + rewrite restore_unresolved by done. by exists m.
  - rewrite restore_falsy_run, restore_all_run by done. apply Hloop.
  - rewrite restore_all_run. apply Hloop.
Qed.

(** X14: [restore], whatever its argument and its outcome, changes no
    object, runs no module code, adds no registry entry, and keeps every
    module record, changing at most its [exports]. *)
Theorem restore_never path w :
  let w' := (cacheMock_restore H path w).2 in
  heap w' = heap w ∧
  effects w' = effects w ∧
  (∀ q s, reg_get q (cache w') = Some s → reg_get q (cache w) = Some s) ∧
  (∀ q m, require_cache w !! q = Some m →
          ∃ m', require_cache w' !! q = Some m' ∧ same_module m m').
Proof.
  simpl. split; [apply restore_heap|]. split; [apply restore_effects|].
  split; [apply restore_entries|apply restore_records].
Qed.

Lemma cacheMock_records path ov w q m :
  require_cache w !! q = Some m →
  require_cache (cacheMock H path ov w).2 !! q = Some m.
Proof.
  intros Hq.
  destruct (cacheMock_state H path ov w)
    as [(e & -> & _)|[(p & _ & _ & ->)|
        (p & m1 & w1 & pre & suf & _ & _ & Hw1 & _ & -> & _)]];
    [done|done|].
  simpl. rewrite snapshotted_cached.
  destruct Hw1 as [[_ ->]|(Hc & _ & Hreq & init & a & Hsrc)]; [done|].
  rewrite (host_require_exports H p init a w Hsrc) in Hreq.
  injection Hreq as <-. simpl. rewrite lookup_insert_ne; [done|]. congruence.
Qed.

Lemma preload_records modulePath exports_arg w q m :
  require_cache w !! q = Some m →
  require_cache (cacheMock_require H modulePath exports_arg w).2 !! q
    = Some m.
Proof.
  intros Hq. js_unfold.
  destruct exports_arg, (resolve H modulePath) as [p|]; simpl; try done;
    destruct (require_cache w !! p) eqn:Hc; simpl; try done;
    rewrite lookup_insert_ne; congruence.
Qed.

Lemma preload_cache modulePath exports_arg w :
  cache (cacheMock_require H modulePath exports_arg w).2 = cache w.
Proof.
  js_unfold.
  destruct exports_arg, (resolve H modulePath) as [p|]; simpl; try done;
    by destruct (require_cache w !! p).
Qed.

(** X15: no call ever removes a module record or changes its id, file name,
    loaded flag or parent; [cacheMock] and [cacheMock.require] leave every
    existing record exactly as it is. *)
Theorem records_stay c w q m :
  require_cache w !! q = Some m →
  ∃ m', require_cache (after H c w) !! q = Some m' ∧
        same_module m m' ∧
        match c with CallRestore _ => True | _ => m' = m end.
Proof.
  intros Hq. destruct c as [path ov|path|modulePath exports_arg|o]; simpl.
  - exists m. rewrite (cacheMock_records path ov w q m Hq). by repeat split.
  - destruct (restore_records path w q m Hq) as (m' & ? & ?). by exists m'.
  - exists m. rewrite (preload_records modulePath exports_arg w q m Hq).
    by repeat split.
  - exists m. by repeat split.
Qed.

Lemma cacheMock_entries path ov w q s :
  reg_get q (cache (cacheMock H path ov w).2) = Some s →
  reg_get q (cache w) = Some s ∨ resolve H path = Some q.
Proof.
  destruct (cacheMock_state H path ov w)
    as [(e & -> & _)|[(p & _ & _ & ->)|
        (p & m1 & w1 & pre & suf & _ & Hr & Hw1 & _ & -> & _)]];
    [by left|by left|].
  simpl. intros Hq. destruct (decide (p = q)) as [->|Hne]; [by right|].
  left. rewrite snapshotted_reg_other in Hq by done.
  destruct Hw1 as [[_ ->]|(_ & _ & Hreq & _)]; [done|].
  pose proof (host_require_cache H p w) as Hcache.
  rewrite Hreq in Hcache. simpl in Hcache. by rewrite <- Hcache.
Qed.

(** X16: registry entries come from [cacheMock] only: an entry found after
    a call was there before, with the same saved copy, unless the call was
    a [cacheMock] whose path resolves to the path of the entry. *)
Theorem entries_come_from_mock c w q s :
  reg_get q (cache (after H c w)) = Some s →
  reg_get q (cache w) = Some s ∨
  ∃ path mockExports, c = CallMock path mockExports ∧ resolve H path = Some q.
Proof.
  destruct c as [path ov|path|modulePath exports_arg|o]; simpl.
  - intros Hq. destruct (cacheMock_entries path ov w q s Hq); eauto.
  - intros Hq. left. by eapply restore_entries.
  - rewrite preload_cache. by left.
  - by left.
Qed.

(** ** Every entry has a module record *)

Lemma registered_loaded_after c w :
  registered_loaded w → registered_loaded (after H c w).
Proof.
  intros Hrl q s Hq.
  destruct c as [path ov|path|modulePath exports_arg|o]; simpl in *.
  - destruct (cacheMock_state H path ov w)
      as [(e & Hst & _)|[(p & _ & _ & Hst)|
          (p & m1 & w1 & pre & suf & _ & Hr & Hw1 & _ & Hst & _)]].
    + rewrite Hst in *. by eapply Hrl.
    + rewrite Hst in *. by eapply Hrl.
    + rewrite Hst in *. simpl in *. rewrite snapshotted_cached.
      assert (Hm1 : require_cache w1 !! p = Some m1).
      { by destruct Hw1 as [[? ->]|(_ & ? & _)]. }
      destruct (decide (p = q)) as [->|Hne]; [by eauto|].
      rewrite snapshotted_reg_other in Hq by done.
      destruct Hw1 as [[_ ->]|(_ & _ & Hreq & _)]; [by eapply Hrl|].
      pose proof (host_require_cache H p w) as Hcache.
      pose proof (host_require_cached H p q w) as Hcached.
      rewrite Hreq in Hcache, Hcached. simpl in *.
      rewrite Hcache in Hq. eapply Hcached, Hrl, Hq.
  - apply restore_entries in Hq. destruct (Hrl q s Hq) as [m Hm].
    destruct (restore_records path w q m Hm) as (m' & -> & _). eauto.
  - rewrite preload_cache in Hq. destruct (Hrl q s Hq) as [m Hm].
    rewrite (preload_records _ _ w q m Hm). eauto.
  - by eapply Hrl.
Qed.

(** X17: starting from a state in which every registry entry has a module
    record (a fresh process, say), this stays so through any sequence of
    calls, each of which may return or throw; hence a [restore()] made at
    any point empties the registry. *)
Theorem restore_all_always_clears cs w0 :
  registered_loaded w0 →
  registered_loaded (run_calls H cs w0) ∧
  cache (after H (CallRestore None) (run_calls H cs w0)) = [].
Proof.
  intros Hrl0.
  assert (Hrl : registered_loaded (run_calls H cs w0)).
  { unfold run_calls. revert w0 Hrl0.
    induction cs as [|c cs IH]; intros w0 Hrl0; simpl; [done|].
    by apply IH, registered_loaded_after. }
  split; [done|]. simpl. rewrite restore_all_run. simpl.
  by apply restore_all_clears.
Qed.

End more.
(** * The further properties on the modules of the test suite *)

Lemma restore_missing_is_noop_witness :
  cacheMock_restore test_host (Some "./tmpModule.js") tmp_loaded
    = (Return tt, tmp_loaded).
Proof.
  apply (restore_missing_is_noop test_host "./tmpModule.js"
           "/test/tmpModule.js" tmp_loaded);
    [reflexivity|reflexivity|right; reflexivity].
Defined.

Lemma restore_empty_registry_noop_witness :
  (cacheMock_restore test_host (Some "nowhere") tmp_loaded).2 = tmp_loaded ∧
  cacheMock_restore test_host None tmp_loaded = (Return tt, tmp_loaded).
Proof.
  apply (restore_empty_registry_noop test_host (Some "nowhere") tmp_loaded).
  reflexivity.
Defined.

Lemma restore_one_frame_witness :
  ∃ w',
    cacheMock_restore test_host (Some "/test/tmpModule2.js") both_mocked
      = (Return tt, w') ∧
    heap w' = heap both_mocked ∧
    effects w' = effects both_mocked ∧
    ∀ q, q ≠ "/test/tmpModule2.js" →
         require_cache w' !! q = require_cache both_mocked !! q ∧
         reg_get q (cache w') = reg_get q (cache both_mocked).
Proof.
  apply (restore_one_frame test_host "/test/tmpModule2.js"
           "/test/tmpModule2.js" both_mocked); reflexivity.
Defined.

Lemma restore_order_irrelevant_witness :
  for_of ["/test/tmpModule.js"; "/test/tmpModule2.js"] restore_entry
    both_mocked
  = for_of ["/test/tmpModule2.js"; "/test/tmpModule.js"] restore_entry
      both_mocked.
Proof.
  apply (restore_order_irrelevant
           ["/test/tmpModule.js"; "/test/tmpModule2.js"]
           ["/test/tmpModule2.js"; "/test/tmpModule.js"] both_mocked).
  apply perm_swap.
Defined.

Lemma round_trip_any_spelling_witness :
  let w1 := (cacheMock test_host "./tmpModule.js" [("a", VStr "mockedA")]
               tmp_loaded).2 in
  let r2 := cacheMock_restore test_host (Some "/test/tmpModule.js") w1 in
  r2.1 = Return tt ∧
  live r2.2 "/test/tmpModule.js" = Some tmpModule ∧
  reg_get "/test/tmpModule.js" (cache r2.2) = None.
Proof.
  apply (round_trip_any_spelling test_host "./tmpModule.js"
           "/test/tmpModule.js" [("a", VStr "mockedA")]
           "/test/tmpModule.js" tmpModule tmp_loaded); reflexivity.
Defined.


Lemma mock_twice_is_one_mock_witness :
  cacheMock test_host "./tmpModule.js" [("b", VStr "mockB1")]
    (cacheMock test_host "./tmpModule.js" [("a", VStr "mockA1")]
       tmp_loaded).2
  = cacheMock test_host "./tmpModule.js"
      [("a", VStr "mockA1"); ("b", VStr "mockB1")] tmp_loaded.
Proof.
  apply (mock_twice_is_one_mock test_host "./tmpModule.js"
           [("a", VStr "mockA1")] [("b", VStr "mockB1")]
           "/test/tmpModule.js"
           {| mod_id := "/test/tmpModule.js";
              filename := Some "/test/tmpModule.js"; loaded := true;
              exports := 0; parent := Some "/test/cacheMock.test.js" |}
           tmp_loaded); vm_compute; reflexivity.
Defined.

Lemma mock_loaded_frame_witness :
  let w' := (cacheMock test_host "./tmpModule.js" [("a", VStr "mockedA")]
               tmp_frozen).2 in
  require_cache w' = require_cache tmp_frozen ∧
  effects w' = effects tmp_frozen ∧
  (∀ q, q ≠ "/test/tmpModule.js" →
        reg_get q (cache w') = reg_get q (cache tmp_frozen)) ∧
  (∀ l o, l ≠ 0 → heap tmp_frozen !! l = Some o → heap w' !! l = Some o).
Proof.
  apply (mock_loaded_frame test_host "./tmpModule.js"
           [("a", VStr "mockedA")] "/test/tmpModule.js"
           {| mod_id := "/test/tmpModule.js";
              filename := Some "/test/tmpModule.js"; loaded := true;
              exports := 0; parent := Some "/test/cacheMock.test.js" |}
           tmp_frozen); reflexivity.
Defined.



Lemma mock_builtin_type_error_witness :
  cacheMock builtin_host "fs" [("readFileSync", VNull)] fresh_process
    = (Throw TypeError, fresh_process).
Proof.
  apply (mock_builtin_type_error builtin_host "fs"
           [("readFileSync", VNull)] "fs" fresh_process); reflexivity.
Defined.



Lemma records_stay_witness :
  ∃ m',
    require_cache (after test_host (CallRestore None) tmp_mocked)
      !! "/test/tmpModule.js" = Some m' ∧
    same_module
      {| mod_id := "/test/tmpModule.js";
         filename := Some "/test/tmpModule.js"; loaded := true;
         exports := 0; parent := Some "/test/cacheMock.test.js" |} m' ∧
    True.
Proof.
  apply (records_stay test_host (CallRestore None) tmp_mocked
           "/test/tmpModule.js"
           {| mod_id := "/test/tmpModule.js";
              filename := Some "/test/tmpModule.js"; loaded := true;
              exports := 0; parent := Some "/test/cacheMock.test.js" |}).
  vm_compute. reflexivity.
Defined.

Lemma entries_come_from_mock_witness :
  reg_get "/test/tmpModule.js" (cache tmp_loaded) = Some 1 ∨
  ∃ path mockExports,
    CallMock "./tmpModule.js" [("a", VStr "mockedA")]
      = CallMock path mockExports ∧
    resolve test_host path = Some "/test/tmpModule.js".
Proof.
  apply (entries_come_from_mock test_host
           (CallMock "./tmpModule.js" [("a", VStr "mockedA")])
           tmp_loaded "/test/tmpModule.js" 1).
  vm_compute. reflexivity.
Defined.

Lemma restore_all_always_clears_witness :
  let cs := [CallRequire "/test/tmpPreloadModule.js" None;
             CallMock "/test/tmpPreloadModule.js" [("value", VNum 999)];
             CallMock "./tmpModule.js" [("a", VStr "mockedA")];
             CallMock "nowhere" [];
             CallRestore (Some "./tmpModule.js")] in
  registered_loaded (run_calls test_host cs fresh_process) ∧
  cache (after test_host (CallRestore None)
           (run_calls test_host cs fresh_process)) = [].
Proof.
  apply (restore_all_always_clears test_host
           [CallRequire "/test/tmpPreloadModule.js" None;
            CallMock "/test/tmpPreloadModule.js" [("value", VNum 999)];
            CallMock "./tmpModule.js" [("a", VStr "mockedA")];
            CallMock "nowhere" [];
            CallRestore (Some "./tmpModule.js")] fresh_process).
  intros p s Hp. discriminate Hp.
Defined.
